(** * The node RPC bridge: gas price, gas estimate and ABI string decoding

    A shallow embedding of [internal/repository/rpc/utils.go]:
    [parseAbiString], [TokenNameAttempt], [GasPrice], [GasEstimate] and
    [GasEstimateWithBlock], with the theorems that relate them to the
    written specification of the bridge. *)

From Stdlib Require Import ZArith List String Ascii Strings.Byte Bool Lia DecimalString.
From Equations Require Import Equations.
Import ListNotations.

Open Scope Z_scope.

(** ** The parts of the Go runtime the bridge relies on *)

Module Go.

(** [int] is the 64-bit signed integer of the platforms the server runs
    on; arithmetic on it wraps around. *)
Definition max_int : Z := 2 ^ 63 - 1.

Definition wrap_int (z : Z) : Z := (z + 2 ^ 63) mod 2 ^ 64 - 2 ^ 63.

Definition int_add (a b : Z) : Z := wrap_int (a + b).
Definition int_sub (a b : Z) : Z := wrap_int (a - b).

(** The conversion [int(u)] of a [uint64]. *)
Definition int_of_uint64 (u : Z) : Z := wrap_int u.

(** [uint8] increment, [try++]. *)
Definition uint8_incr (n : Z) : Z := (n + 1) mod 256.

(** An error value is what its [Error()] method prints. *)
Inductive error : Type := mkError (msg : string).

Definition Error (e : error) : string := let 'mkError m := e in m.

(** The verbs [%d] and [%v] on an integer: its decimal numeral. *)
Definition decimal (z : Z) : string := NilZero.string_of_int (Z.to_int z).

(** A byte slice: [nil], or a window on a backing array.  [elems] are the
    [len] bytes the slice shows, [spare] the bytes of the backing array
    between [len] and [cap]. *)
Inductive bytes : Type :=
| nil_slice
| slice (elems spare : list byte).

Definition is_nil (d : bytes) : bool :=
  match d with nil_slice => true | slice _ _ => false end.

Definition elems_of (d : bytes) : list byte :=
  match d with nil_slice => [] | slice e _ => e end.

Definition backing (d : bytes) : list byte :=
  match d with nil_slice => [] | slice e s => (e ++ s)%list end.

Definition len (d : bytes) : Z := Z.of_nat (List.length (elems_of d)).
Definition cap (d : bytes) : Z := Z.of_nat (List.length (backing d)).

(** The bytes a slice expression [d[lo:hi]] shows when its indices are in
    range. *)
Definition window (d : bytes) (lo hi : Z) : list byte :=
  firstn (Z.to_nat (hi - lo)) (skipn (Z.to_nat lo) (backing d)).

(** [d[lo:hi]] is in range when [0 <= lo <= hi <= cap(d)]; for a slice the
    upper bound is the capacity, not the length. *)
Definition in_range (d : bytes) (lo hi : Z) : bool :=
  (0 <=? lo) && (lo <=? hi) && (hi <=? cap d).

(** [string(b)] copies the bytes. *)
Definition string_of_bytes (b : list byte) : string := string_of_list_byte b.

(** [strings.Contains(s, substr)]. *)
Fixpoint Contains (s substr : string) : bool :=
  if String.prefix substr s then true
  else match s with
       | EmptyString => false
       | String _ s' => Contains s' substr
       end.

End Go.

(** [math/big]: the unsigned big-endian reading of a byte string and the
    bit length of a number. *)
Module Big.

Definition SetBytes (b : list byte) : Z :=
  fold_left (fun acc x => acc * 256 + Z.of_N (Byte.to_N x)) b 0.

Definition BitLen (x : Z) : Z :=
  if x =? 0 then 0 else Z.log2 (Z.abs x) + 1.

(** [x.Uint64()]: the low 64 bits of the absolute value. *)
Definition Uint64 (x : Z) : Z := Z.abs x mod 2 ^ 64.

(** [common.Big32]. *)
Definition Big32 : Z := 32.

End Big.

Import Go.

(** ** Computations that evaluate slice expressions

    A computation yields the list of slice expressions it evaluated, in
    order, and either a value or the run-time panic of an expression whose
    indices are out of range. *)

Definition access : Type := Z * Z.

Inductive res (A : Type) : Type :=
| Done (a : A)
| Panic.
Arguments Done {A} a.
Arguments Panic {A}.

Definition M (A : Type) : Type := list access * res A.

Definition ret {A} (a : A) : M A := ([], Done a).

Definition bind {A B} (m : M A) (f : A -> M B) : M B :=
  match m with
  | (l, Done a) => let (l', r) := f a in ((l ++ l')%list, r)
  | (l, Panic) => (l, Panic)
  end.

Notation "x <- m ;; k" := (bind m (fun x => k))
  (at level 61, m at next level, right associativity).

Definition slice_expr (d : bytes) (lo hi : Z) : M (list byte) :=
  ([(lo, hi)], if in_range d lo hi then Done (window d lo hi) else Panic).

(** ** The errors of the bridge *)

Definition MalformedAbiPayload (n : Z) : error :=
  mkError ("abi encoded string expected, only " ++ decimal n ++ " bytes received")%string.

Definition OffsetOverflow (v : Z) : error :=
  mkError ("string offset larger than int64: " ++ decimal v)%string.

Definition LengthOverflow (v : Z) : error :=
  mkError ("string length larger than int64: " ++ decimal v)%string.

Definition GasPriceUnavailable : error :=
  mkError "gas price not available, please try again later".

(** The specification's [AbiValueOverflow] covers both overflow errors. *)
Definition AbiValueOverflow (e : error) : Prop :=
  exists v, 2 ^ 63 <= v /\ (e = OffsetOverflow v \/ e = LengthOverflow v).

(** ** parseAbiString *)

Definition parseAbiString (data : bytes) : M (string * option error) :=
  if is_nil data || (len data <? 96) then
    ret (EmptyString, Some (MalformedAbiPayload (len data)))
  else
    head <- slice_expr data 0 32 ;;
    let bigOffset := Big.SetBytes head in
    if 63 <? Big.BitLen bigOffset then
      ret (EmptyString, Some (OffsetOverflow bigOffset))
    else
      let offset := int_of_uint64 (Big.Uint64 (bigOffset + Big.Big32)) in
      word <- slice_expr data (int_sub offset 32) offset ;;
      let bigLength := Big.SetBytes word in
      if 63 <? Big.BitLen bigLength then
        ret (EmptyString, Some (LengthOverflow bigLength))
      else
        let length := int_of_uint64 (Big.Uint64 bigLength) in
        body <- slice_expr data offset (int_add offset length) ;;
        ret (string_of_bytes body, None).

(** ** The transport and what the bridge does to the outside

    [ftm.rpc.Call] and [ftm.eth.CallContract] reach a remote node.  The node
    is a state [T] with one transition per request; a request either fails
    with an error, leaving the result variable of the caller as it was, or
    yields a value. *)

Definition Address : Type := list byte.

(** The zero value [common.Address{}]. *)
Definition zero_Address : Address := repeat x00 20.

Module Trx.
(** The anonymous struct [GasEstimate] receives. *)
Record t : Type := mk {
  From : option Address;
  To : option Address;
  Value : option Z;
  Data : option string
}.
End Trx.

Module CallMsg.
(** The fields of [ethereum.CallMsg] the bridge sets. *)
Record t : Type := mk {
  From : Address;
  To : option Address;
  Data : list byte
}.
End CallMsg.

Inductive arg : Type :=
| ArgTrx (trx : Trx.t)
| ArgBlock (id : string).

Inductive level : Type := Debug | Err.

(** [time.Millisecond], in nanoseconds. *)
Definition Millisecond : Z := 1000000.

(** Modelled from the spec: the constant [BlockTypeLatest] of the package is
    declared outside this file; it is the "latest block" reference the
    fallback call appends. *)
Definition BlockTypeLatest : string := "latest".

Definition maxAcceptedGasPrice : Z := 1000000000000000000.

Definition solidityCallFunctionName : list byte := [x06; xfd; xde; x03].

Inductive event : Type :=
| Log (lvl : level) (msg : string)
| Rpc (method : string) (args : list arg) (reply : error + Z)
| Eth (msg : CallMsg.t) (reply : bytes * option error)
| Sleep (d : Z).

Class Transport (T : Type) : Type := {
  Call : T -> string -> list arg -> (error + Z) * T;
  CallContract : T -> CallMsg.t -> (bytes * option error) * T
}.

Section Bridge.

Context {T : Type} `{Transport T}.

(** What a bridge operation runs in: the node and the events so far,
    oldest first. *)
Record world : Type := mkWorld { node : T; trace : list event }.

Definition emit (e : event) (w : world) : world :=
  {| node := node w; trace := trace w ++ [e] |}.

Definition rpcCall (method : string) (args : list arg) (w : world)
  : (error + Z) * world :=
  let (r, n) := Call (node w) method args in
  (r, {| node := n; trace := trace w ++ [Rpc method args r] |}).

Definition ethCallContract (msg : CallMsg.t) (w : world)
  : (bytes * option error) * world :=
  let (r, n) := CallContract (node w) msg in
  (r, {| node := n; trace := trace w ++ [Eth msg r] |}).

(** *** GasPrice *)

(** The iterations the loop can still start when [try] has the given
    value: it leaves as soon as [try > 2]. *)
Definition tries_left (try : Z) : nat := Z.to_nat (3 - try).
Arguments tries_left : simpl never.

(** The body of the [for] loop, from the state of [price] and [try] at the
    head of an iteration. *)
Equations? GasPrice_loop (price try : Z) (w : world)
  : (Z * option error) * world by wf (tries_left try) lt :=
  GasPrice_loop price try w with rpcCall "ftm_gasPrice" [] w := {
    | (inl err, w1) =>
        ((price, Some err),
         emit (Log Err "current gas price could not be obtained") w1)
    | (inr p, w1) with Z_le_dec p maxAcceptedGasPrice := {
        | left _ => ((p, None), w1)
        | right _ with Z_gt_dec try 2 := {
            | left _ =>
                ((p, Some GasPriceUnavailable),
                 emit (Log Err "can not get reasonable gas price from the backend server") w1)
            | right _ =>
                GasPrice_loop p (uint8_incr try)
                              (emit (Sleep (100 * Millisecond)) w1) } } }.
Proof.
  unfold tries_left, uint8_incr.
  assert (0 <= (try + 1) mod 256 < 256) by (apply Z.mod_pos_bound; lia).
  destruct (Z_lt_dec try 0).
  - lia.
  - rewrite Z.mod_small by lia. lia.
Defined.

Definition GasPrice (w : world) : (Z * option error) * world :=
  GasPrice_loop 0 0 (emit (Log Debug "checking current gas price") w).

(** *** GasEstimate *)

Definition GasEstimateWithBlock (trx : Trx.t) (w : world)
  : (option Z * option error) * world :=
  let w0 := emit (Log Debug "calling for gas amount estimation with block details") w in
  match rpcCall "ftm_estimateGas" [ArgTrx trx; ArgBlock BlockTypeLatest] w0 with
  | (inl err, w1) =>
      ((None, Some err),
       emit (Log Err ("can not estimate gas; " ++ Error err)) w1)
  | (inr val, w1) => ((Some val, None), w1)
  end.

Definition GasEstimate (trx : Trx.t) (w : world)
  : (option Z * option error) * world :=
  let w0 := emit (Log Debug "calling for gas amount estimation") w in
  match rpcCall "ftm_estimateGas" [ArgTrx trx] w0 with
  | (inl err, w1) =>
      if Contains (Error err) "missing value" then
        GasEstimateWithBlock trx w1
      else
        ((None, Some err),
         emit (Log Err ("can not estimate gas; " ++ Error err)) w1)
  | (inr val, w1) => ((Some val, None), w1)
  end.

(** *** TokenNameAttempt *)

Definition TokenNameAttempt (adr : option Address) (w : world)
  : M (string * option error) * world :=
  match ethCallContract
          {| CallMsg.From := zero_Address;
             CallMsg.To := adr;
             CallMsg.Data := solidityCallFunctionName |} w with
  | ((_, Some err), w1) => (ret (EmptyString, Some err), w1)
  | ((data, None), w1) => (parseAbiString data, w1)
  end.

End Bridge.

(** ** The decoder as the specification words it *)

Module Spec.

(** A big-endian unsigned integer: the first byte is the most
    significant. *)
Fixpoint be_uint (b : list byte) : Z :=
  match b with
  | [] => 0
  | x :: b' => Z.of_N (Byte.to_N x) * 256 ^ Z.of_nat (List.length b') + be_uint b'
  end.

(** Bytes [i..j] of the buffer, both ends included. *)
Definition bytes_between (d : bytes) (i j : Z) : list byte :=
  map (fun k => nth k (elems_of d) x00)
      (seq (Z.to_nat i) (Z.to_nat (j + 1 - i))).

Definition offset_of (d : bytes) : Z := be_uint (bytes_between d 0 31).

Definition start_of (d : bytes) : Z := offset_of d + 32.

Definition length_of (d : bytes) : Z :=
  be_uint (bytes_between d (start_of d - 32) (start_of d - 1)).

Definition AbiStringDecoder (d : bytes) : string :=
  string_of_bytes (bytes_between d (start_of d) (start_of d + length_of d - 1)).

(** A well-formed buffer: at least three words, an offset and a length
    that fit 63 bits, and the length word and the string inside the
    buffer. *)
Definition well_formed (d : bytes) : bool :=
  (96 <=? len d)
  && (offset_of d <? 2 ^ 63)
  && (start_of d <=? len d)
  && (length_of d <? 2 ^ 63)
  && (start_of d + length_of d <=? len d).

End Spec.

(** ** What the code reads *)

(** The offset word and, for that offset, the length word, as the code
    reads them from the backing array. *)
Definition offsetField (d : bytes) : Z := Big.SetBytes (window d 0 32).

Definition lengthField (d : bytes) : Z :=
  Big.SetBytes (window d (offsetField d) (offsetField d + 32)).

(** A slice the runtime can hold: its capacity is an [int]. *)
Definition representable (d : bytes) : Prop := cap d <= max_int.

(** A slice expression that stays inside the [len] bytes of the buffer. *)
Definition within (d : bytes) (a : access) : bool :=
  (0 <=? fst a) && (fst a <=? snd a) && (snd a <=? len d).

(** A run that neither panics nor reads outside the buffer. *)
Definition safe {A} (d : bytes) (r : M A) : Prop :=
  snd r <> Panic /\ forallb (within d) (fst r) = true.

(** ** Buffers and transports the examples use *)

Definition byte_of_Z (z : Z) : byte :=
  match Byte.of_N (Z.to_N (z mod 256)) with Some b => b | None => x00 end.

(** The [n] low bytes of [z], most significant first. *)
Fixpoint be_bytes (n : nat) (z : Z) : list byte :=
  match n with
  | O => []
  | S n' => be_bytes n' (z / 256) ++ [byte_of_Z z]
  end.

Definition word32 (z : Z) : list byte := be_bytes 32 z.

Definition zeros (n : nat) : list byte := repeat x00 n.

(** offset = 0x20, length = 5, "hello" padded to 32 bytes. *)
Definition hello_buffer : bytes :=
  slice (word32 32 ++ word32 5 ++ list_byte_of_string "hello" ++ zeros 27) [].

(** offset field = 96 in a buffer of 96 bytes, without and with spare
    capacity behind it. *)
Definition offset96_buffer : bytes :=
  slice (word32 96 ++ zeros 64) [].

Definition offset96_roomy : bytes :=
  slice (word32 96 ++ zeros 64) (word32 3 ++ list_byte_of_string "abc").

Definition short_buffer : bytes := slice (zeros 95) [].

Definition huge_offset_buffer : bytes :=
  slice (word32 (2 ^ 63) ++ zeros 64) [].

Definition huge_length_buffer : bytes :=
  slice (word32 32 ++ word32 (2 ^ 200) ++ zeros 32) [].

(** A transport that answers the [n]-th call with the [n]-th entry of a
    script, and with an error once the script is over; contract calls
    return a fixed buffer. *)
Definition scripted (l : list (error + Z)) (buf : bytes) : Transport nat :=
  {| Call := fun n _ _ => (nth n l (inl (mkError "EOF")), S n);
     CallContract := fun n _ => ((buf, None), S n) |}.

(** A transport whose every gas price is above the ceiling. *)
Definition always_over : Transport nat :=
  {| Call := fun n _ _ => (inr (maxAcceptedGasPrice + 1 + Z.of_nat n), S n);
     CallContract := fun n _ => ((nil_slice, None), S n) |}.

Definition start_world : @world nat := {| node := O; trace := [] |}.

Definition no_trx : Trx.t := Trx.mk None None None None.

(** A transport whose node fails every request with the same error. *)
Definition always_failing (e : error) : Transport nat :=
  {| Call := fun n _ _ => (inl e, S n);
     CallContract := fun n _ => ((nil_slice, Some e), S n) |}.

(** ** Reading a trace *)

Definition is_rpc (e : event) : bool :=
  match e with Rpc _ _ _ => true | _ => false end.

Definition is_sleep (e : event) : bool :=
  match e with Sleep _ => true | _ => false end.

Definition rpc_calls (l : list event) : nat := List.length (filter is_rpc l).

Definition sleeps (l : list event) : list event := filter is_sleep l.

(** The estimate call with the latest-block parameter appended. *)
Definition is_fallback_call (e : event) : bool :=
  match e with
  | Rpc m [ArgTrx _; ArgBlock b] _ =>
      String.eqb m "ftm_estimateGas" && String.eqb b BlockTypeLatest
  | _ => false
  end.

(** The events an operation added when it took [w] to [w']. *)
Definition new_events {T : Type} (w w' : @world T) : list event :=
  skipn (List.length (trace w)) (trace w').

(** The world [w] after the node moved to [n] and the events [evs]
    happened. *)
Definition after {T : Type} (n : T) (w : @world T) (evs : list event) : @world T :=
  {| node := n; trace := trace w ++ evs |}.
(** What a run of the loop adds to the trace: a failed call is followed by
    the error log and nothing else, and its error is the result. *)
Definition stops_at_failure (evs : list event) (r : Z * option error) : Prop :=
  forall pre post m a e,
    evs = pre ++ Rpc m a (inl e) :: post ->
    snd r = Some e
    /\ post = [Log Err "current gas price could not be obtained"].

(** ** More ways to read a run *)

(** The reply of the last call in a list of events. *)
Fixpoint last_reply (evs : list event) : option (error + Z) :=
  match evs with
  | [] => None
  | e :: l =>
      match last_reply l with
      | Some r => Some r
      | None => match e with Rpc _ _ r => Some r | _ => None end
      end
  end.

(** The events [GasPrice] can add: logs, calls of [ftm_gasPrice] without
    arguments and waits of 100ms. *)
Definition gas_price_event (e : event) : bool :=
  match e with
  | Log _ _ => true
  | Rpc m [] _ => String.eqb m "ftm_gasPrice"
  | Rpc _ (_ :: _) _ => false
  | Eth _ _ => false
  | Sleep d => d =? 100 * Millisecond
  end.

(** The message [TokenNameAttempt] sends: no sender, the contract as the
    target, the selector of [name()] as the call data. *)
Definition name_call (adr : option Address) : CallMsg.t :=
  {| CallMsg.From := zero_Address;
     CallMsg.To := adr;
     CallMsg.Data := solidityCallFunctionName |}.

(** The layout the decoder expects, as its comment gives it: the offset
    word (32), the length word, the body, and whatever follows it (the
    padding). *)
Definition abi_layout (body tail : list byte) : list byte :=
  word32 32 ++ word32 (Z.of_nat (List.length body)) ++ body ++ tail.

(** The calls and the waits of a run, without its logs. *)
Definition is_log (e : event) : bool :=
  match e with Log _ _ => true | _ => false end.

Definition without_logs (l : list event) : list event :=
  filter (fun e => negb (is_log e)) l.

(** A call, then any number of times a wait and a call: every wait stands
    between two calls, none comes first and none comes last. *)
Fixpoint call_wait_call (l : list event) : bool :=
  match l with
  | [Rpc _ _ _] => true
  | Rpc _ _ _ :: Sleep _ :: l' => call_wait_call l'
  | _ => false
  end.

(** The calls of a run, in order. *)
Definition calls_of (l : list event) : list event := filter is_rpc l.

(** * Theorems *)

(** ** Arithmetic of [int] and of [math/big] *)

Lemma wrap_int_small (z : Z) :
  - 2 ^ 63 <= z < 2 ^ 63 -> wrap_int z = z.
Proof.
  intros Hz. unfold wrap_int. rewrite Z.mod_small; lia.
Qed.

Lemma wrap_int_high (z : Z) :
  2 ^ 63 <= z < 2 ^ 64 + 2 ^ 63 -> wrap_int z = z - 2 ^ 64.
Proof.
  intros Hz. unfold wrap_int.
  replace (z + 2 ^ 63) with (z - 2 ^ 63 + 1 * 2 ^ 64) by lia.
  rewrite Z.mod_add by lia. rewrite Z.mod_small; lia.
Qed.

Lemma SetBytes_acc (b : list byte) (acc : Z) :
  fold_left (fun a x => a * 256 + Z.of_N (Byte.to_N x)) b acc
  = acc * 256 ^ Z.of_nat (List.length b) + Spec.be_uint b.
Proof.
  revert acc. induction b as [|x b IH]; intros acc.
  - simpl. lia.
  - cbn [fold_left Spec.be_uint List.length]. rewrite IH.
    rewrite Nat2Z.inj_succ, Z.pow_succ_r by lia. ring.
Qed.

Lemma SetBytes_be_uint (b : list byte) : Big.SetBytes b = Spec.be_uint b.
Proof.
  unfold Big.SetBytes. rewrite SetBytes_acc. lia.
Qed.

Lemma be_uint_nonneg (b : list byte) : 0 <= Spec.be_uint b.
Proof.
  induction b as [|x b IH]; simpl; [lia|].
  assert (0 <= 256 ^ Z.of_nat (List.length b)) by (apply Z.pow_nonneg; lia).
  assert (0 <= Z.of_N (Byte.to_N x)) by lia. nia.
Qed.

Lemma SetBytes_nonneg (b : list byte) : 0 <= Big.SetBytes b.
Proof. rewrite SetBytes_be_uint. apply be_uint_nonneg. Qed.

Lemma BitLen_overflow (x : Z) :
  0 <= x -> (63 <? Big.BitLen x) = (2 ^ 63 <=? x).
Proof.
  intros Hx. unfold Big.BitLen.
  destruct (Z.eqb_spec x 0) as [->|Hne]; [reflexivity|].
  rewrite Z.abs_eq by lia.
  assert (Hlog : x < 2 ^ 63 <-> Z.log2 x < 63) by (apply Z.log2_lt_pow2; lia).
  destruct (Z.ltb_spec 63 (Z.log2 x + 1)), (Z.leb_spec (2 ^ 63) x); try reflexivity; lia.
Qed.

(** ** The paths of [parseAbiString] *)

Lemma len_le_cap (d : bytes) : len d <= cap d.
Proof.
  unfold len, cap. destruct d as [|e s]; simpl; [lia|].
  rewrite length_app. lia.
Qed.

Lemma len_nonneg (d : bytes) : 0 <= len d.
Proof. unfold len. lia. Qed.

Lemma long_not_nil (d : bytes) :
  96 <= len d -> is_nil d || (len d <? 96) = false.
Proof.
  intros Hl. destruct d as [|e s]; [unfold len in Hl; simpl in Hl; lia|].
  simpl. apply Z.ltb_ge. exact Hl.
Qed.

Lemma in_range_head (d : bytes) : 96 <= len d -> in_range d 0 32 = true.
Proof.
  intros Hl. pose proof (len_le_cap d). unfold in_range.
  rewrite (proj2 (Z.leb_le 32 (cap d))) by lia. reflexivity.
Qed.

(** The code's [offset] and the slice expression of the length word, for an
    offset field that fits 63 bits. *)
Lemma offset_int (o : Z) :
  0 <= o -> o + 32 < 2 ^ 63 ->
  int_of_uint64 (Big.Uint64 (o + Big.Big32)) = o + 32.
Proof.
  intros H0 H1. unfold int_of_uint64, Big.Uint64, Big.Big32.
  rewrite Z.abs_eq by lia. rewrite Z.mod_small by lia.
  apply wrap_int_small. lia.
Qed.

Lemma offset_int_wrapped (o : Z) :
  o < 2 ^ 63 -> 2 ^ 63 <= o + 32 ->
  int_of_uint64 (Big.Uint64 (o + Big.Big32)) < 0.
Proof.
  intros H0 H1. unfold int_of_uint64, Big.Uint64, Big.Big32.
  rewrite Z.abs_eq by lia. rewrite Z.mod_small by lia.
  rewrite wrap_int_high by lia. lia.
Qed.

Lemma in_range_negative (d : bytes) (lo hi : Z) : hi < 0 -> in_range d lo hi = false.
Proof.
  intros Hhi. unfold in_range.
  destruct (Z.leb_spec 0 lo); [|reflexivity].
  destruct (Z.leb_spec lo hi); [lia|reflexivity].
Qed.

Lemma in_range_spec (d : bytes) (lo hi : Z) :
  in_range d lo hi = true <-> 0 <= lo /\ lo <= hi /\ hi <= cap d.
Proof.
  unfold in_range. rewrite !andb_true_iff, !Z.leb_le. tauto.
Qed.

Lemma parse_short (d : bytes) :
  len d < 96 ->
  parseAbiString d = ([], Done (EmptyString, Some (MalformedAbiPayload (len d)))).
Proof.
  intros Hl. unfold parseAbiString.
  rewrite (proj2 (Z.ltb_lt (len d) 96) Hl), orb_true_r. reflexivity.
Qed.

Lemma parse_offset_overflow (d : bytes) :
  96 <= len d -> 2 ^ 63 <= offsetField d ->
  parseAbiString d
  = ([(0, 32)], Done (EmptyString, Some (OffsetOverflow (offsetField d)))).
Proof.
  intros Hl Ho. unfold parseAbiString, slice_expr, bind.
  rewrite long_not_nil, in_range_head by assumption.
  fold (offsetField d).
  rewrite BitLen_overflow by apply SetBytes_nonneg.
  rewrite (proj2 (Z.leb_le _ _) Ho). reflexivity.
Qed.

Lemma parse_offset_out (d : bytes) :
  representable d -> 96 <= len d ->
  offsetField d < 2 ^ 63 -> cap d < offsetField d + 32 ->
  exists a, parseAbiString d = ([(0, 32); a], Panic) /\ within d a = false.
Proof.
  intros Hr Hl Ho Hc. unfold parseAbiString, slice_expr, bind.
  rewrite long_not_nil, in_range_head by assumption.
  fold (offsetField d).
  pose proof (SetBytes_nonneg (window d 0 32)) as Hnn. fold (offsetField d) in Hnn.
  rewrite BitLen_overflow by assumption.
  rewrite (proj2 (Z.leb_gt _ _) Ho).
  cbv zeta.
  destruct (Z_lt_dec (offsetField d + 32) (2 ^ 63)) as [Hs|Hs].
  - rewrite offset_int by assumption.
    unfold int_sub. rewrite wrap_int_small by lia.
    replace (offsetField d + 32 - 32) with (offsetField d) by lia.
    replace (in_range d (offsetField d) (offsetField d + 32)) with false.
    + eexists; split; [reflexivity|].
      unfold within; simpl. pose proof (len_le_cap d).
      rewrite (proj2 (Z.leb_gt (offsetField d + 32) (len d))) by lia.
      apply andb_false_r.
    + symmetry. apply not_true_is_false. rewrite in_range_spec. lia.
  - pose proof (offset_int_wrapped (offsetField d) Ho ltac:(lia)) as Hneg.
    rewrite in_range_negative by assumption.
    eexists; split; [reflexivity|].
    unfold within; simpl.
    set (off := int_of_uint64 _) in *.
    destruct (Z.leb_spec 0 (int_sub off 32)); [|reflexivity].
    destruct (Z.leb_spec (int_sub off 32) off); [lia|reflexivity].
Qed.

Lemma parse_length_word (d : bytes) :
  representable d -> 96 <= len d ->
  offsetField d < 2 ^ 63 -> offsetField d + 32 <= cap d ->
  parseAbiString d
  = let o := offsetField d in
    let L := lengthField d in
    if 2 ^ 63 <=? L then
      ([(0, 32); (o, o + 32)], Done (EmptyString, Some (LengthOverflow L)))
    else
      ([(0, 32); (o, o + 32); (o + 32, int_add (o + 32) L)],
       if in_range d (o + 32) (int_add (o + 32) L)
       then Done (string_of_bytes (window d (o + 32) (int_add (o + 32) L)), None)
       else Panic).
Proof.
  intros Hr Hl Ho Hc. unfold parseAbiString, slice_expr, bind.
  rewrite long_not_nil, in_range_head by assumption.
  fold (offsetField d).
  pose proof (SetBytes_nonneg (window d 0 32)) as Hnn. fold (offsetField d) in Hnn.
  rewrite BitLen_overflow by assumption.
  rewrite (proj2 (Z.leb_gt _ _) Ho).
  cbv zeta. unfold representable, max_int in Hr.
  rewrite offset_int by lia.
  unfold int_sub. rewrite wrap_int_small by lia.
  replace (offsetField d + 32 - 32) with (offsetField d) by lia.
  rewrite (proj2 (in_range_spec d (offsetField d) (offsetField d + 32))) by lia.
  fold (lengthField d).
  pose proof (SetBytes_nonneg (window d (offsetField d) (offsetField d + 32))) as HL.
  fold (lengthField d) in HL.
  rewrite BitLen_overflow by assumption.
  destruct (Z.leb_spec (2 ^ 63) (lengthField d)) as [Hb|Hb]; [reflexivity|].
  assert (E : int_of_uint64 (Big.Uint64 (lengthField d)) = lengthField d).
  { unfold int_of_uint64, Big.Uint64.
    rewrite Z.abs_eq by lia. rewrite Z.mod_small by lia.
    apply wrap_int_small. lia. }
  rewrite !E.
  destruct (in_range d (offsetField d + 32) (int_add (offsetField d + 32) (lengthField d)));
    reflexivity.
Qed.

Lemma parse_length_overflow (d : bytes) :
  representable d -> 96 <= len d ->
  offsetField d < 2 ^ 63 -> offsetField d + 32 <= cap d ->
  2 ^ 63 <= lengthField d ->
  parseAbiString d
  = ([(0, 32); (offsetField d, offsetField d + 32)],
     Done (EmptyString, Some (LengthOverflow (lengthField d)))).
Proof.
  intros Hr Hl Ho Hc HL. rewrite parse_length_word by assumption.
  cbv zeta. rewrite (proj2 (Z.leb_le _ _) HL). reflexivity.
Qed.

Lemma parse_body_out (d : bytes) :
  representable d -> 96 <= len d ->
  offsetField d < 2 ^ 63 -> offsetField d + 32 <= cap d ->
  lengthField d < 2 ^ 63 -> cap d < offsetField d + 32 + lengthField d ->
  exists a,
    parseAbiString d
    = ([(0, 32); (offsetField d, offsetField d + 32); a], Panic)
    /\ within d a = false.
Proof.
  intros Hr Hl Ho Hc HL Hout. rewrite parse_length_word by assumption.
  cbv zeta. rewrite (proj2 (Z.leb_gt _ _) HL).
  pose proof (SetBytes_nonneg (window d 0 32)) as Hnn. fold (offsetField d) in Hnn.
  pose proof (SetBytes_nonneg (window d (offsetField d) (offsetField d + 32))) as HLn.
  fold (lengthField d) in HLn.
  pose proof (len_le_cap d) as Hlc.
  unfold representable, max_int in Hr.
  set (o := offsetField d) in *. set (L := lengthField d) in *.
  assert (Hhi : int_add (o + 32) L = o + 32 + L \/ int_add (o + 32) L < 0).
  { unfold int_add. destruct (Z_lt_dec (o + 32 + L) (2 ^ 63)).
    - left. apply wrap_int_small. lia.
    - right. rewrite wrap_int_high by lia. lia. }
  assert (Hno : in_range d (o + 32) (int_add (o + 32) L) = false).
  { apply not_true_is_false. rewrite in_range_spec. lia. }
  rewrite Hno. eexists; split; [reflexivity|].
  unfold within; simpl.
  destruct (Z.leb_spec (o + 32) (int_add (o + 32) L)).
  - rewrite (proj2 (Z.leb_gt (int_add (o + 32) L) (len d))) by lia.
    apply andb_false_r.
  - rewrite andb_false_r. reflexivity.
Qed.

Lemma parse_body (d : bytes) :
  representable d -> 96 <= len d ->
  offsetField d < 2 ^ 63 -> offsetField d + 32 <= cap d ->
  lengthField d < 2 ^ 63 -> offsetField d + 32 + lengthField d <= cap d ->
  parseAbiString d
  = ([(0, 32); (offsetField d, offsetField d + 32);
      (offsetField d + 32, offsetField d + 32 + lengthField d)],
     Done (string_of_bytes
             (window d (offsetField d + 32) (offsetField d + 32 + lengthField d)),
           None)).
Proof.
  intros Hr Hl Ho Hc HL Hin. rewrite parse_length_word by assumption.
  cbv zeta. rewrite (proj2 (Z.leb_gt _ _) HL).
  pose proof (SetBytes_nonneg (window d 0 32)) as Hnn. fold (offsetField d) in Hnn.
  pose proof (SetBytes_nonneg (window d (offsetField d) (offsetField d + 32))) as HLn.
  fold (lengthField d) in HLn.
  unfold representable, max_int in Hr.
  unfold int_add. rewrite wrap_int_small by lia.
  rewrite (proj2 (in_range_spec d _ _)) by lia. reflexivity.
Qed.

(** ** The code's windows and the specification's byte ranges *)

Lemma skipn_nth_cons {A} (l : list A) (i : nat) (a : A) :
  (i < List.length l)%nat -> skipn i l = nth i l a :: skipn (S i) l.
Proof.
  revert i. induction l as [|x l IH]; intros i Hi; simpl in Hi; [lia|].
  destruct i as [|i]; [reflexivity|].
  cbn [skipn nth]. apply IH. lia.
Qed.

Lemma firstn_skipn_nth {A} (l : list A) (a : A) (n i : nat) :
  (i + n <= List.length l)%nat ->
  firstn n (skipn i l) = map (fun k => nth k l a) (seq i n).
Proof.
  revert i. induction n as [|n IH]; intros i Hi; [reflexivity|].
  rewrite (skipn_nth_cons l i a) by lia.
  cbn [firstn seq map]. f_equal. apply IH. lia.
Qed.

Lemma window_between (d : bytes) (i j : Z) :
  0 <= i -> i <= j -> j <= len d ->
  window d i j = Spec.bytes_between d i (j - 1).
Proof.
  intros Hi Hij Hj. unfold window, Spec.bytes_between.
  replace (j - 1 + 1 - i) with (j - i) by lia.
  pose proof (len_le_cap d) as Hlc. unfold len, cap in *.
  rewrite (firstn_skipn_nth (backing d) x00) by lia.
  apply map_ext_in. intros k Hk. apply in_seq in Hk.
  destruct d as [|e s]; [reflexivity|].
  simpl in *. apply app_nth1. lia.
Qed.

Lemma offsetField_spec (d : bytes) :
  96 <= len d -> offsetField d = Spec.offset_of d.
Proof.
  intros Hl. unfold offsetField, Spec.offset_of.
  rewrite SetBytes_be_uint, window_between by lia. reflexivity.
Qed.

Lemma lengthField_spec (d : bytes) :
  96 <= len d -> 0 <= offsetField d -> offsetField d + 32 <= len d ->
  lengthField d = Spec.length_of d.
Proof.
  intros Hl H0 Ho. unfold lengthField, Spec.length_of, Spec.start_of.
  rewrite <- offsetField_spec by assumption.
  rewrite SetBytes_be_uint, window_between by lia.
  do 2 f_equal; lia.
Qed.

(** ** The claims about [parseAbiString] *)

(** C3.  A buffer shorter than 96 bytes, [nil] and the empty buffer among
    them, is refused with the malformed-payload error, whose message gives
    the number of bytes received; no slice expression is evaluated, so no
    byte of the buffer is read. *)
Theorem parseAbiString_short_buffer (d : bytes) :
  len d < 96 ->
  parseAbiString d = ([], Done (EmptyString, Some (MalformedAbiPayload (len d))))
  /\ Error (MalformedAbiPayload (len d))
     = ("abi encoded string expected, only " ++ decimal (len d) ++ " bytes received")%string.
Proof.
  intros Hl. split; [apply parse_short; exact Hl | reflexivity].
Qed.

Lemma parseAbiString_short_buffer_witness :
  (parseAbiString short_buffer
   = ([], Done (EmptyString,
                Some (mkError "abi encoded string expected, only 95 bytes received"))))
  /\ (parseAbiString nil_slice
      = ([], Done (EmptyString,
                   Some (mkError "abi encoded string expected, only 0 bytes received")))).
Proof.
  split.
  - exact (proj1 (parseAbiString_short_buffer short_buffer ltac:(vm_compute; reflexivity))).
  - exact (proj1 (parseAbiString_short_buffer nil_slice ltac:(vm_compute; reflexivity))).
Defined.

(** C4.  On a well-formed buffer the code returns what the specification
    describes: the offset is the big-endian value of bytes 0..31, the start
    is the offset plus 32, the length is the big-endian value of the 32
    bytes before the start, and the result is the [length] bytes from the
    start on.  The buffer with offset 0x20, length 5 and "hello" padded
    to 32 bytes decodes to "hello". *)
Theorem parseAbiString_well_formed :
  (forall d : bytes,
      representable d -> Spec.well_formed d = true ->
      parseAbiString d
      = ([(0, 32);
          (Spec.start_of d - 32, Spec.start_of d);
          (Spec.start_of d, Spec.start_of d + Spec.length_of d)],
         Done (Spec.AbiStringDecoder d, None)))
  /\ parseAbiString hello_buffer
     = ([(0, 32); (32, 64); (64, 69)], Done ("hello"%string, None)).
Proof.
  split; [|vm_compute; reflexivity].
  intros d Hr Hwf. unfold Spec.well_formed in Hwf.
  rewrite !andb_true_iff, !Z.leb_le, !Z.ltb_lt in Hwf.
  destruct Hwf as [[[[Hl Ho] Hs] HL] Hb].
  pose proof (len_le_cap d) as Hlc.
  pose proof (SetBytes_nonneg (window d 0 32)) as Hnn. fold (offsetField d) in Hnn.
  assert (Eo : Spec.offset_of d = offsetField d)
    by (symmetry; apply offsetField_spec; exact Hl).
  unfold Spec.start_of in *. rewrite Eo in *.
  assert (EL : Spec.length_of d = lengthField d)
    by (symmetry; apply lengthField_spec; lia).
  rewrite EL in *.
  pose proof (SetBytes_nonneg (window d (offsetField d) (offsetField d + 32))) as HLn.
  fold (lengthField d) in HLn.
  rewrite parse_body by (first [assumption | lia]).
  rewrite window_between by lia.
  unfold Spec.AbiStringDecoder, Spec.start_of. rewrite Eo, EL.
  replace (offsetField d + 32 - 32) with (offsetField d) by lia.
  reflexivity.
Qed.

Lemma parseAbiString_well_formed_witness :
  parseAbiString hello_buffer
  = ([(0, 32);
      (Spec.start_of hello_buffer - 32, Spec.start_of hello_buffer);
      (Spec.start_of hello_buffer,
       Spec.start_of hello_buffer + Spec.length_of hello_buffer)],
     Done (Spec.AbiStringDecoder hello_buffer, None)).
Proof.
  apply (proj1 parseAbiString_well_formed hello_buffer).
  - vm_compute. discriminate.
  - vm_compute. reflexivity.
Defined.

(** C5.  In a buffer of at least 96 bytes, an offset field above 2^63-1,
    and behind an in-bounds offset a length field above 2^63-1, end the
    decoding with the overflow error that prints the whole value; no slice
    expression is evaluated with an index made from the oversized value. *)
Theorem parseAbiString_value_overflow (d : bytes) :
  representable d -> 96 <= len d ->
  (max_int < offsetField d ->
     parseAbiString d
     = ([(0, 32)], Done (EmptyString, Some (OffsetOverflow (offsetField d))))
     /\ AbiValueOverflow (OffsetOverflow (offsetField d)))
  /\ (offsetField d <= max_int -> offsetField d + 32 <= len d ->
      max_int < lengthField d ->
      parseAbiString d
      = ([(0, 32); (offsetField d, offsetField d + 32)],
         Done (EmptyString, Some (LengthOverflow (lengthField d))))
      /\ AbiValueOverflow (LengthOverflow (lengthField d))).
Proof.
  intros Hr Hl. unfold max_int. pose proof (len_le_cap d) as Hlc. split.
  - intros Ho. split.
    + apply parse_offset_overflow; lia.
    + exists (offsetField d). split; [lia | left; reflexivity].
  - intros Ho Hin HL. split.
    + apply parse_length_overflow; try assumption; lia.
    + exists (lengthField d). split; [lia | right; reflexivity].
Qed.

Lemma parseAbiString_value_overflow_witness :
  parseAbiString huge_offset_buffer
  = ([(0, 32)],
     Done (EmptyString,
           Some (mkError "string offset larger than int64: 9223372036854775808")))
  /\ parseAbiString huge_length_buffer
     = ([(0, 32); (32, 64)],
        Done (EmptyString,
              Some (mkError
                "string length larger than int64: 1606938044258990275541962092341162602522202993782792835301376"))).
Proof.
  split.
  - exact (proj1 (proj1 (parseAbiString_value_overflow huge_offset_buffer
                           ltac:(vm_compute; discriminate)
                           ltac:(vm_compute; discriminate))
                        ltac:(vm_compute; reflexivity))).
  - exact (proj1 (proj2 (parseAbiString_value_overflow huge_length_buffer
                           ltac:(vm_compute; discriminate)
                           ltac:(vm_compute; discriminate))
                        ltac:(vm_compute; discriminate)
                        ltac:(vm_compute; discriminate)
                        ltac:(vm_compute; reflexivity))).
Defined.

(** C2.  Behind the length test and the two 63-bit tests no index is
    compared with the size of the buffer.  For a buffer of at least 96
    bytes whose two fields pass the 63-bit tests, the run panics exactly
    when the length word or the string ends behind the capacity, and it
    stays inside the buffer without a panic exactly when both end inside
    the buffer.  The buffer of 96 bytes whose offset field is 96 panics;
    with spare capacity behind it the same buffer yields bytes from behind
    its end.  [TokenNameAttempt] hands a successful reply to
    [parseAbiString] as it is, so it inherits the panic. *)
Theorem parseAbiString_unchecked_bounds :
  (forall d : bytes,
      representable d -> 96 <= len d ->
      offsetField d <= max_int -> lengthField d <= max_int ->
      (snd (parseAbiString d) = Panic
       <-> ~ (offsetField d + 32 <= cap d
              /\ offsetField d + 32 + lengthField d <= cap d))
      /\ (safe d (parseAbiString d)
          <-> offsetField d + 32 <= len d
              /\ offsetField d + 32 + lengthField d <= len d))
  /\ (len offset96_buffer = 96
      /\ offsetField offset96_buffer = 96
      /\ parseAbiString offset96_buffer = ([(0, 32); (96, 128)], Panic))
  /\ (len offset96_roomy = 96
      /\ parseAbiString offset96_roomy
         = ([(0, 32); (96, 128); (128, 131)], Done ("abc"%string, None)))
  /\ (forall (T : Type) (H : Transport T) (adr : option Address)
             (w : world) (data : bytes) (n : T),
         CallContract (node w)
           {| CallMsg.From := zero_Address;
              CallMsg.To := adr;
              CallMsg.Data := solidityCallFunctionName |} = ((data, None), n) ->
         fst (TokenNameAttempt adr w) = parseAbiString data).
Proof.
  split; [|split; [|split]].
  - intros d Hr Hl Ho HL. unfold max_int in Ho, HL.
    pose proof (len_le_cap d) as Hlc.
    pose proof (SetBytes_nonneg (window d 0 32)) as Hnn. fold (offsetField d) in Hnn.
    pose proof (SetBytes_nonneg (window d (offsetField d) (offsetField d + 32))) as HLn.
    fold (lengthField d) in HLn.
    unfold safe.
    destruct (Z_le_dec (offsetField d + 32) (cap d)) as [Hc|Hc].
    + destruct (Z_le_dec (offsetField d + 32 + lengthField d) (cap d)) as [Hb|Hb].
      * rewrite parse_body by (first [assumption | lia]).
        cbn [fst snd forallb]. unfold within. cbn [fst snd].
        split; [split; [intros E; discriminate E | lia]|].
        rewrite !andb_true_iff, !Z.leb_le.
        split; [intros [_ ?]; lia | intros ?; split; [discriminate | lia]].
      * destruct (parse_body_out d) as (a & E & Ha); try assumption; try lia.
        rewrite E. cbn [fst snd forallb]. rewrite Ha.
        split; [split; [intros _; lia | reflexivity]|].
        split; [intros [? _]; congruence | lia].
    + destruct (parse_offset_out d) as (a & E & Ha); try assumption; try lia.
      rewrite E. cbn [fst snd forallb]. rewrite Ha.
      split; [split; [intros _; lia | reflexivity]|].
      split; [intros [? _]; congruence | lia].
  - vm_compute. repeat split; reflexivity.
  - vm_compute. repeat split; reflexivity.
  - intros T H adr w data n E. unfold TokenNameAttempt, ethCallContract.
    rewrite E. reflexivity.
Qed.

Lemma parseAbiString_unchecked_bounds_witness :
  safe hello_buffer (parseAbiString hello_buffer)
  /\ snd (parseAbiString offset96_buffer) = Panic
  /\ ~ safe offset96_roomy (parseAbiString offset96_roomy)
  /\ fst (@TokenNameAttempt nat (scripted [] offset96_buffer) None start_world)
     = ([(0, 32); (96, 128)], Panic).
Proof.
  pose proof parseAbiString_unchecked_bounds as (Hall & Hex & _ & Htok).
  split; [|split; [|split]].
  - apply (Hall hello_buffer); vm_compute; try discriminate; split; discriminate.
  - apply (Hall offset96_buffer); vm_compute; try discriminate.
    intros [H _]. apply H. reflexivity.
  - intros Hs. apply (Hall offset96_roomy) in Hs; vm_compute; try discriminate.
    destruct Hs as [H _]. vm_compute in H. apply H. reflexivity.
  - rewrite (Htok nat (scripted [] offset96_buffer) None start_world
               offset96_buffer 1%nat eq_refl).
    apply Hex.
Defined.

(** ** [strings.Contains] finds substrings *)

Lemma prefix_app (p s : string) :
  String.prefix p s = true <-> exists b, s = (p ++ b)%string.
Proof.
  revert s. induction p as [|c p IH]; intros s.
  - destruct s; simpl; (split; [intros _; eexists; reflexivity | reflexivity]).
  - destruct s as [|c' s]; simpl.
    + split; [discriminate | intros [b Hb]; discriminate Hb].
    + destruct (Ascii.ascii_dec c c') as [->|Hne].
      * rewrite IH. split; intros [b Hb]; exists b; congruence.
      * split; [discriminate | intros [b Hb]; congruence].
Qed.

Lemma Contains_spec (s sub : string) :
  Contains s sub = true <-> exists a b, s = (a ++ sub ++ b)%string.
Proof.
  induction s as [|c s IH].
  - cbn [Contains]. destruct (String.prefix sub EmptyString) eqn:E.
    + apply prefix_app in E. destruct E as [b Hb].
      split; [intros _; exists EmptyString, b; exact Hb | reflexivity].
    + split; [discriminate|]. intros (a & b & Hab).
      destruct a as [|c a]; [|discriminate Hab].
      assert (String.prefix sub EmptyString = true)
        by (apply prefix_app; exists b; exact Hab).
      congruence.
  - cbn [Contains]. destruct (String.prefix sub (String c s)) eqn:E.
    + apply prefix_app in E. destruct E as [b Hb].
      split; [intros _; exists EmptyString, b; exact Hb | reflexivity].
    + rewrite IH. split.
      * intros (a & b & Hab). exists (String c a), b. simpl. congruence.
      * intros (a & b & Hab). destruct a as [|c' a].
        -- assert (String.prefix sub (String c s) = true)
             by (apply prefix_app; exists b; exact Hab).
           congruence.
        -- exists a, b. simpl in Hab. congruence.
Qed.

(** ** The loop of [GasPrice], one iteration at a time *)

Section BridgeFacts.

Context {T : Type} `{Transport T}.

Lemma new_events_after (n : T) (w : world) (evs : list event) :
  new_events w (after n w evs) = evs.
Proof.
  unfold new_events, after. simpl.
  rewrite skipn_app, skipn_all, Nat.sub_diag. reflexivity.
Qed.

Lemma after_after (n n' : T) (w : world) (l l' : list event) :
  after n' (after n w l) l' = after n' w (l ++ l').
Proof. unfold after. simpl. rewrite app_assoc. reflexivity. Qed.

Lemma loop_fail (price try : Z) (w : world) (e : error) (n : T) :
  Call (node w) "ftm_gasPrice" [] = (inl e, n) ->
  GasPrice_loop price try w
  = ((price, Some e),
     after n w [Rpc "ftm_gasPrice" [] (inl e);
                Log Err "current gas price could not be obtained"]).
Proof.
  intros E. simp GasPrice_loop. unfold rpcCall. rewrite E.
  simp GasPrice_loop. unfold emit, after. simpl.
  rewrite <- app_assoc. reflexivity.
Qed.

Lemma loop_accept (price try : Z) (w : world) (p : Z) (n : T) :
  Call (node w) "ftm_gasPrice" [] = (inr p, n) ->
  p <= maxAcceptedGasPrice ->
  GasPrice_loop price try w
  = ((p, None), after n w [Rpc "ftm_gasPrice" [] (inr p)]).
Proof.
  intros E Hp. simp GasPrice_loop. unfold rpcCall. rewrite E.
  simp GasPrice_loop. destruct (Z_le_dec p maxAcceptedGasPrice); [|contradiction].
  reflexivity.
Qed.

Lemma loop_exhausted (price try : Z) (w : world) (p : Z) (n : T) :
  Call (node w) "ftm_gasPrice" [] = (inr p, n) ->
  maxAcceptedGasPrice < p -> try > 2 ->
  GasPrice_loop price try w
  = ((p, Some GasPriceUnavailable),
     after n w [Rpc "ftm_gasPrice" [] (inr p);
                Log Err "can not get reasonable gas price from the backend server"]).
Proof.
  intros E Hp Ht. simp GasPrice_loop. unfold rpcCall. rewrite E.
  simp GasPrice_loop. destruct (Z_le_dec p maxAcceptedGasPrice); [lia|].
  simpl. destruct (Z_gt_dec try 2); [|contradiction].
  simpl. unfold emit, after. simpl. rewrite <- app_assoc. reflexivity.
Qed.

Lemma loop_retry (price try : Z) (w : world) (p : Z) (n : T) :
  Call (node w) "ftm_gasPrice" [] = (inr p, n) ->
  maxAcceptedGasPrice < p -> try <= 2 ->
  GasPrice_loop price try w
  = GasPrice_loop p (uint8_incr try)
      (after n w [Rpc "ftm_gasPrice" [] (inr p); Sleep (100 * Millisecond)]).
Proof.
  intros E Hp Ht. rewrite (GasPrice_loop_unfold_eq price try w).
  unfold GasPrice_loop_unfold, rpcCall. rewrite E.
  simpl. destruct (Z_le_dec p maxAcceptedGasPrice); [lia|].
  simpl. destruct (Z_gt_dec try 2); [lia|].
  simpl. unfold emit, after. simpl. rewrite <- app_assoc. reflexivity.
Qed.

Lemma tries_left_retry (try : Z) :
  try <= 2 -> (tries_left (uint8_incr try) < tries_left try)%nat.
Proof.
  intros Ht. unfold tries_left, uint8_incr.
  assert (0 <= (try + 1) mod 256 < 256) by (apply Z.mod_pos_bound; lia).
  destruct (Z_lt_dec try 0).
  - lia.
  - rewrite Z.mod_small by lia. lia.
Qed.

(** Induction on the iterations of the loop: a property of the result that
    holds on each way out of the loop, and that a retry preserves, holds of
    every run. *)
Lemma GasPrice_loop_ind
  (P : Z -> Z -> world -> (Z * option error) * world -> Prop) :
  (forall price try w e n,
      Call (node w) "ftm_gasPrice" [] = (inl e, n) ->
      P price try w
        ((price, Some e),
         after n w [Rpc "ftm_gasPrice" [] (inl e);
                    Log Err "current gas price could not be obtained"])) ->
  (forall price try w p n,
      Call (node w) "ftm_gasPrice" [] = (inr p, n) ->
      p <= maxAcceptedGasPrice ->
      P price try w ((p, None), after n w [Rpc "ftm_gasPrice" [] (inr p)])) ->
  (forall price try w p n,
      Call (node w) "ftm_gasPrice" [] = (inr p, n) ->
      maxAcceptedGasPrice < p -> try > 2 ->
      P price try w
        ((p, Some GasPriceUnavailable),
         after n w [Rpc "ftm_gasPrice" [] (inr p);
                    Log Err "can not get reasonable gas price from the backend server"])) ->
  (forall price try w p n r,
      Call (node w) "ftm_gasPrice" [] = (inr p, n) ->
      maxAcceptedGasPrice < p -> try <= 2 ->
      P p (uint8_incr try)
        (after n w [Rpc "ftm_gasPrice" [] (inr p); Sleep (100 * Millisecond)]) r ->
      P price try w r) ->
  forall price try w, P price try w (GasPrice_loop price try w).
Proof.
  intros Hfail Hacc Hexh Hretry price try.
  remember (tries_left try) as k eqn:Hk.
  revert price try Hk.
  induction k as [k IH] using lt_wf_ind. intros price try Hk w.
  destruct (Call (node w) "ftm_gasPrice" []) as [[e|p] n] eqn:E.
  - rewrite (loop_fail _ _ _ _ _ E). apply Hfail. exact E.
  - destruct (Z_le_dec p maxAcceptedGasPrice) as [Hp|Hp].
    + rewrite (loop_accept _ _ _ _ _ E Hp). apply Hacc; assumption.
    + destruct (Z_gt_dec try 2) as [Ht|Ht].
      * rewrite (loop_exhausted _ _ _ _ _ E) by lia. apply Hexh; [assumption|lia|assumption].
      * rewrite (loop_retry _ _ _ _ _ E) by lia.
        apply (Hretry price try w p n); [assumption|lia|lia|].
        apply (IH (tries_left (uint8_incr try))); [|reflexivity].
        subst k. apply tries_left_retry. lia.
Qed.

End BridgeFacts.

(** ** The claims about [GasPrice] *)

Lemma emit_after {T : Type} (e : event) (w : @world T) :
  emit e w = after (node w) w [e].
Proof. reflexivity. Qed.

Lemma trace_after {T : Type} (n : T) (w : @world T) (evs : list event) :
  trace (after n w evs) = trace w ++ evs.
Proof. reflexivity. Qed.

Lemma node_after {T : Type} (n : T) (w : @world T) (evs : list event) :
  node (after n w evs) = n.
Proof. reflexivity. Qed.

(** C1, as the code has it.  When every call succeeds with a price above
    the ceiling, [GasPrice] makes four calls, the first and three retries,
    sleeps 100ms after each of the first three, and fails with the
    "try again later" error. *)
Theorem GasPrice_always_over_ceiling {T : Type} `{Transport T} (w : world) :
  (forall n : T, exists p n',
      Call n "ftm_gasPrice" [] = (inr p, n') /\ maxAcceptedGasPrice < p) ->
  exists p1 p2 p3 p4 n4,
    GasPrice w
    = ((p4, Some GasPriceUnavailable),
       after n4 w
         [Log Debug "checking current gas price";
          Rpc "ftm_gasPrice" [] (inr p1); Sleep (100 * Millisecond);
          Rpc "ftm_gasPrice" [] (inr p2); Sleep (100 * Millisecond);
          Rpc "ftm_gasPrice" [] (inr p3); Sleep (100 * Millisecond);
          Rpc "ftm_gasPrice" [] (inr p4);
          Log Err "can not get reasonable gas price from the backend server"])
    /\ rpc_calls (new_events w (snd (GasPrice w))) = 4%nat
    /\ sleeps (new_events w (snd (GasPrice w)))
       = [Sleep 100000000; Sleep 100000000; Sleep 100000000]
    /\ Error GasPriceUnavailable
       = "gas price not available, please try again later"%string.
Proof.
  intros Hover. unfold GasPrice. rewrite emit_after.
  destruct (Hover (node w)) as (p1 & n1 & E1 & H1).
  destruct (Hover n1) as (p2 & n2 & E2 & H2).
  destruct (Hover n2) as (p3 & n3 & E3 & H3).
  destruct (Hover n3) as (p4 & n4 & E4 & H4).
  exists p1, p2, p3, p4, n4.
  rewrite (loop_retry 0 0 _ p1 n1) by (rewrite ?node_after; first [assumption | lia]).
  rewrite after_after.
  rewrite (loop_retry p1 _ _ p2 n2)
    by (rewrite ?node_after; first [assumption | vm_compute; discriminate]).
  rewrite after_after.
  rewrite (loop_retry p2 _ _ p3 n3)
    by (rewrite ?node_after; first [assumption | vm_compute; discriminate]).
  rewrite after_after.
  rewrite (loop_exhausted p3 _ _ p4 n4)
    by (rewrite ?node_after; first [assumption | vm_compute; reflexivity]).
  rewrite after_after. cbn [app snd].
  rewrite new_events_after. repeat split; reflexivity.
Qed.

Lemma GasPrice_always_over_ceiling_witness :
  exists p1 p2 p3 p4 n4,
    @GasPrice nat always_over start_world
    = ((p4, Some GasPriceUnavailable),
       after n4 start_world
         [Log Debug "checking current gas price";
          Rpc "ftm_gasPrice" [] (inr p1); Sleep (100 * Millisecond);
          Rpc "ftm_gasPrice" [] (inr p2); Sleep (100 * Millisecond);
          Rpc "ftm_gasPrice" [] (inr p3); Sleep (100 * Millisecond);
          Rpc "ftm_gasPrice" [] (inr p4);
          Log Err "can not get reasonable gas price from the backend server"]).
Proof.
  destruct (@GasPrice_always_over_ceiling nat always_over start_world)
    as (p1 & p2 & p3 & p4 & n4 & E & _).
  - intros n. exists (maxAcceptedGasPrice + 1 + Z.of_nat n), (S n).
    split; [reflexivity | lia].
  - exists p1, p2, p3, p4, n4. exact E.
Defined.

(** C1, as the specification words it, fails: on a transport whose every
    price is above the ceiling the run makes four calls and sleeps three
    times, not three and two. *)
Lemma GasPrice_three_attempts_counterexample :
  (forall n : nat, exists p n',
      @Call nat always_over n "ftm_gasPrice" [] = (inr p, n')
      /\ maxAcceptedGasPrice < p)
  /\ rpc_calls (new_events start_world (snd (@GasPrice nat always_over start_world)))
     = 4%nat
  /\ List.length (sleeps (new_events start_world
                            (snd (@GasPrice nat always_over start_world))))
     = 3%nat
  /\ ~ (rpc_calls (new_events start_world
                     (snd (@GasPrice nat always_over start_world))) = 3%nat
        /\ List.length (sleeps (new_events start_world
                                  (snd (@GasPrice nat always_over start_world))))
           = 2%nat).
Proof.
  split; [|split; [|split]].
  - intros n. exists (maxAcceptedGasPrice + 1 + Z.of_nat n), (S n).
    split; [reflexivity | lia].
  - vm_compute. reflexivity.
  - vm_compute. reflexivity.
  - intros [E _]. vm_compute in E. discriminate E.
Qed.

(** C8.  A price above the ceiling on the first call and one at or below
    it on the second: [GasPrice] returns the second price with no error,
    after two calls and one wait. *)
Theorem GasPrice_second_attempt {T : Type} `{Transport T}
        (w : world) (p1 p2 : Z) (n1 n2 : T) :
  Call (node w) "ftm_gasPrice" [] = (inr p1, n1) ->
  maxAcceptedGasPrice < p1 ->
  Call n1 "ftm_gasPrice" [] = (inr p2, n2) ->
  p2 <= maxAcceptedGasPrice ->
  GasPrice w
  = ((p2, None),
     after n2 w
       [Log Debug "checking current gas price";
        Rpc "ftm_gasPrice" [] (inr p1); Sleep (100 * Millisecond);
        Rpc "ftm_gasPrice" [] (inr p2)])
  /\ rpc_calls (new_events w (snd (GasPrice w))) = 2%nat.
Proof.
  intros E1 H1 E2 H2. unfold GasPrice. rewrite emit_after.
  rewrite (loop_retry 0 0 _ p1 n1) by (rewrite ?node_after; first [assumption | lia]).
  rewrite after_after.
  rewrite (loop_accept p1 _ _ p2 n2) by (rewrite ?node_after; assumption).
  rewrite after_after. cbn [app snd]. rewrite new_events_after.
  split; reflexivity.
Qed.

Lemma GasPrice_second_attempt_witness :
  @GasPrice nat (scripted [inr (2 * maxAcceptedGasPrice); inr 5] nil_slice) start_world
  = ((5, None),
     after 2%nat start_world
       [Log Debug "checking current gas price";
        Rpc "ftm_gasPrice" [] (inr (2 * maxAcceptedGasPrice));
        Sleep (100 * Millisecond);
        Rpc "ftm_gasPrice" [] (inr 5)]).
Proof.
  apply (@GasPrice_second_attempt nat
           (scripted [inr (2 * maxAcceptedGasPrice); inr 5] nil_slice)
           start_world (2 * maxAcceptedGasPrice) 5 1%nat 2%nat).
  - reflexivity.
  - vm_compute. reflexivity.
  - reflexivity.
  - vm_compute. discriminate.
Defined.

Lemma loop_stops_at_failure {T : Type} `{Transport T} (price try : Z) (w : world) :
  exists evs,
    trace (snd (GasPrice_loop price try w)) = trace w ++ evs
    /\ stops_at_failure evs (fst (GasPrice_loop price try w)).
Proof.
  apply (GasPrice_loop_ind
           (fun _ _ w r =>
              exists evs, trace (snd r) = trace w ++ evs
                          /\ stops_at_failure evs (fst r))).
  - intros price0 try0 w0 e n _. eexists; split; [reflexivity|].
    intros pre post m a e' E.
    destruct pre as [|x pre]; cbn [app] in E.
    + inversion E; subst. split; reflexivity.
    + inversion E as [[Hx E']]. destruct pre as [|y pre]; cbn [app] in E'.
      * discriminate E'.
      * inversion E' as [[Hy E'']]. destruct pre; discriminate E''.
  - intros price0 try0 w0 p n _ _. eexists; split; [reflexivity|].
    intros pre post m a e' E.
    destruct pre as [|x pre]; cbn [app] in E.
    + discriminate E.
    + inversion E as [[Hx E']]. destruct pre; discriminate E'.
  - intros price0 try0 w0 p n _ _ _. eexists; split; [reflexivity|].
    intros pre post m a e' E.
    destruct pre as [|x pre]; cbn [app] in E.
    + discriminate E.
    + inversion E as [[Hx E']]. destruct pre as [|y pre]; cbn [app] in E'.
      * discriminate E'.
      * inversion E' as [[Hy E'']]. destruct pre; discriminate E''.
  - intros price0 try0 w0 p n r _ _ _ (evs & Etr & Hstop).
    exists ([Rpc "ftm_gasPrice" [] (inr p); Sleep (100 * Millisecond)] ++ evs).
    split.
    + rewrite Etr, trace_after, <- app_assoc. reflexivity.
    + intros pre post m a e' E.
      destruct pre as [|x pre]; cbn [app] in E; [discriminate E|].
      inversion E as [[Hx E']]. destruct pre as [|y pre]; cbn [app] in E'.
      * discriminate E'.
      * inversion E' as [[Hy E'']]. apply (Hstop pre post m a e'). exact E''.
Qed.

(** C6.  A transport error ends [GasPrice] at once, on whichever attempt
    it happens: the loop returns that error, having added the failing call
    and one error log to the trace; in a whole run, what follows a failed
    call is that log alone, so no call and no wait comes after it. *)
Theorem GasPrice_transport_error {T : Type} `{Transport T} :
  (forall (price try : Z) (w : world) (e : error) (n : T),
      Call (node w) "ftm_gasPrice" [] = (inl e, n) ->
      GasPrice_loop price try w
      = ((price, Some e),
         after n w [Rpc "ftm_gasPrice" [] (inl e);
                    Log Err "current gas price could not be obtained"]))
  /\ (forall (w : world) (pre post : list event)
             (m : string) (a : list arg) (e : error),
         new_events w (snd (GasPrice w)) = pre ++ Rpc m a (inl e) :: post ->
         snd (fst (GasPrice w)) = Some e
         /\ post = [Log Err "current gas price could not be obtained"]
         /\ rpc_calls post = 0%nat /\ sleeps post = [])
  /\ (forall (w : world) (e : error) (n : T),
         Call (node w) "ftm_gasPrice" [] = (inl e, n) ->
         GasPrice w
         = ((0, Some e),
            after n w [Log Debug "checking current gas price";
                       Rpc "ftm_gasPrice" [] (inl e);
                       Log Err "current gas price could not be obtained"])).
Proof.
  split; [|split].
  - intros price try w e n E. apply loop_fail. exact E.
  - intros w pre post m a e E. unfold GasPrice in *.
    destruct (loop_stops_at_failure 0 0 (emit (Log Debug "checking current gas price") w))
      as (evs & Etr & Hstop).
    set (r := GasPrice_loop 0 0 _) in *.
    assert (Enew : new_events w (snd r)
                   = Log Debug "checking current gas price" :: evs).
    { unfold new_events. rewrite Etr. cbn [emit trace].
      rewrite <- app_assoc, skipn_app, skipn_all, Nat.sub_diag. reflexivity. }
    rewrite Enew in E.
    destruct pre as [|x pre]; cbn [app] in E; [discriminate E|].
    inversion E as [[Hx E']].
    destruct (Hstop pre post m a e E') as [Hr Hp].
    subst post. repeat split; try reflexivity. exact Hr.
  - intros w e n E. unfold GasPrice. rewrite emit_after.
    rewrite (loop_fail 0 0 _ e n) by (rewrite ?node_after; assumption).
    rewrite after_after. reflexivity.
Qed.

Lemma GasPrice_transport_error_witness :
  @GasPrice nat (scripted [inr (2 * maxAcceptedGasPrice); inl (mkError "connection refused")]
                          nil_slice) start_world
  = ((2 * maxAcceptedGasPrice, Some (mkError "connection refused")),
     after 2%nat start_world
       [Log Debug "checking current gas price";
        Rpc "ftm_gasPrice" [] (inr (2 * maxAcceptedGasPrice));
        Sleep (100 * Millisecond);
        Rpc "ftm_gasPrice" [] (inl (mkError "connection refused"));
        Log Err "current gas price could not be obtained"])
  /\ @GasPrice nat (always_failing (mkError "connection refused")) start_world
     = ((0, Some (mkError "connection refused")),
        after 1%nat start_world
          [Log Debug "checking current gas price";
           Rpc "ftm_gasPrice" [] (inl (mkError "connection refused"));
           Log Err "current gas price could not be obtained"]).
Proof.
  split.
  - unfold GasPrice. rewrite emit_after.
    rewrite (@loop_retry nat _ 0 0 _ (2 * maxAcceptedGasPrice) 1%nat)
      by (vm_compute; first [reflexivity | discriminate]).
    rewrite after_after. cbn [app].
    rewrite (proj1 (@GasPrice_transport_error nat
                      (scripted [inr (2 * maxAcceptedGasPrice);
                                 inl (mkError "connection refused")] nil_slice))
               (2 * maxAcceptedGasPrice) (uint8_incr 0)
               (after 1%nat start_world
                  [Log Debug "checking current gas price";
                   Rpc "ftm_gasPrice" [] (inr (2 * maxAcceptedGasPrice));
                   Sleep (100 * Millisecond)])
               (mkError "connection refused") 2%nat eq_refl).
    rewrite after_after. reflexivity.
  - exact (proj2 (proj2 (@GasPrice_transport_error nat
                           (always_failing (mkError "connection refused"))))
                 start_world (mkError "connection refused") 1%nat eq_refl).
Defined.




(** ** The claims about [GasEstimate] *)

Lemma estimate_primary_ok {T : Type} `{Transport T}
      (trx : Trx.t) (w : world) (v : Z) (n : T) :
  Call (node w) "ftm_estimateGas" [ArgTrx trx] = (inr v, n) ->
  GasEstimate trx w
  = ((Some v, None),
     after n w [Log Debug "calling for gas amount estimation";
                Rpc "ftm_estimateGas" [ArgTrx trx] (inr v)]).
Proof.
  intros E. unfold GasEstimate, rpcCall. cbn [emit node trace]. rewrite E.
  unfold after. rewrite <- app_assoc. reflexivity.
Qed.

Lemma estimate_primary_other {T : Type} `{Transport T}
      (trx : Trx.t) (w : world) (e : error) (n : T) :
  Call (node w) "ftm_estimateGas" [ArgTrx trx] = (inl e, n) ->
  Contains (Error e) "missing value" = false ->
  GasEstimate trx w
  = ((None, Some e),
     after n w [Log Debug "calling for gas amount estimation";
                Rpc "ftm_estimateGas" [ArgTrx trx] (inl e);
                Log Err ("can not estimate gas; " ++ Error e)]).
Proof.
  intros E Hc. unfold GasEstimate, rpcCall. cbn [emit node trace]. rewrite E, Hc.
  unfold emit, after. cbn [node trace]. rewrite <- !app_assoc. reflexivity.
Qed.

Lemma estimate_fallback {T : Type} `{Transport T}
      (trx : Trx.t) (w : world) (e : error) (n : T) :
  Call (node w) "ftm_estimateGas" [ArgTrx trx] = (inl e, n) ->
  Contains (Error e) "missing value" = true ->
  GasEstimate trx w
  = GasEstimateWithBlock trx
      (after n w [Log Debug "calling for gas amount estimation";
                  Rpc "ftm_estimateGas" [ArgTrx trx] (inl e)]).
Proof.
  intros E Hc. unfold GasEstimate, rpcCall. cbn [emit node trace]. rewrite E, Hc.
  unfold after. rewrite <- app_assoc. reflexivity.
Qed.

Lemma with_block_ok {T : Type} `{Transport T}
      (trx : Trx.t) (w : world) (v : Z) (n : T) :
  Call (node w) "ftm_estimateGas" [ArgTrx trx; ArgBlock BlockTypeLatest] = (inr v, n) ->
  GasEstimateWithBlock trx w
  = ((Some v, None),
     after n w [Log Debug "calling for gas amount estimation with block details";
                Rpc "ftm_estimateGas" [ArgTrx trx; ArgBlock BlockTypeLatest] (inr v)]).
Proof.
  intros E. unfold GasEstimateWithBlock, rpcCall. cbn [emit node trace]. rewrite E.
  unfold after. rewrite <- app_assoc. reflexivity.
Qed.

Lemma with_block_fail {T : Type} `{Transport T}
      (trx : Trx.t) (w : world) (e : error) (n : T) :
  Call (node w) "ftm_estimateGas" [ArgTrx trx; ArgBlock BlockTypeLatest] = (inl e, n) ->
  GasEstimateWithBlock trx w
  = ((None, Some e),
     after n w [Log Debug "calling for gas amount estimation with block details";
                Rpc "ftm_estimateGas" [ArgTrx trx; ArgBlock BlockTypeLatest] (inl e);
                Log Err ("can not estimate gas; " ++ Error e)]).
Proof.
  intros E. unfold GasEstimateWithBlock, rpcCall. cbn [emit node trace]. rewrite E.
  unfold emit, after. cbn [node trace]. rewrite <- !app_assoc. reflexivity.
Qed.

(** C9.  [GasEstimate] makes the call with the latest-block parameter
    exactly when the primary call fails with an error whose message
    contains "missing value"; when that second call succeeds, its
    estimate is returned with a nil error, and the error of the primary
    call is neither returned nor logged. *)
Theorem GasEstimate_fallback {T : Type} `{Transport T} (trx : Trx.t) (w : world) :
  (existsb is_fallback_call (new_events w (snd (GasEstimate trx w))) = true
   <-> exists e n,
        Call (node w) "ftm_estimateGas" [ArgTrx trx] = (inl e, n)
        /\ Contains (Error e) "missing value" = true)
  /\ (forall e n v n',
         Call (node w) "ftm_estimateGas" [ArgTrx trx] = (inl e, n) ->
         Contains (Error e) "missing value" = true ->
         Call n "ftm_estimateGas" [ArgTrx trx; ArgBlock BlockTypeLatest] = (inr v, n') ->
         GasEstimate trx w
         = ((Some v, None),
            after n' w
              [Log Debug "calling for gas amount estimation";
               Rpc "ftm_estimateGas" [ArgTrx trx] (inl e);
               Log Debug "calling for gas amount estimation with block details";
               Rpc "ftm_estimateGas" [ArgTrx trx; ArgBlock BlockTypeLatest] (inr v)])).
Proof.
  split.
  - destruct (Call (node w) "ftm_estimateGas" [ArgTrx trx]) as [[e|v] n] eqn:E.
    + destruct (Contains (Error e) "missing value") eqn:Hc.
      * rewrite (estimate_fallback trx w e n E Hc).
        set (w1 := after n w _).
        destruct (Call (node w1) "ftm_estimateGas" [ArgTrx trx; ArgBlock BlockTypeLatest])
          as [[e'|v] n'] eqn:E'.
        -- rewrite (with_block_fail trx w1 e' n' E'). unfold w1.
           cbn [snd]. rewrite after_after, new_events_after.
           split; [intros _; exists e, n; split; [reflexivity | exact Hc] | reflexivity].
        -- rewrite (with_block_ok trx w1 v n' E'). unfold w1.
           cbn [snd]. rewrite after_after, new_events_after.
           split; [intros _; exists e, n; split; [reflexivity | exact Hc] | reflexivity].
      * rewrite (estimate_primary_other trx w e n E Hc).
        cbn [snd]. rewrite new_events_after.
        split; [intros F; discriminate F|].
        intros (e0 & n0 & E0 & Hc0). inversion E0; subst. congruence.
    + rewrite (estimate_primary_ok trx w v n E).
      cbn [snd]. rewrite new_events_after.
      split; [intros F; discriminate F|].
      intros (e0 & n0 & E0 & _). discriminate E0.
  - intros e n v n' E Hc E'.
    rewrite (estimate_fallback trx w e n E Hc).
    rewrite (with_block_ok trx _ v n') by exact E'.
    rewrite after_after. reflexivity.
Qed.

Lemma GasEstimate_fallback_witness :
  @GasEstimate nat
     (scripted [inl (mkError "missing value for required argument 1"); inr 21000]
               nil_slice) no_trx start_world
  = ((Some 21000, None),
     after 2%nat start_world
       [Log Debug "calling for gas amount estimation";
        Rpc "ftm_estimateGas" [ArgTrx no_trx]
            (inl (mkError "missing value for required argument 1"));
        Log Debug "calling for gas amount estimation with block details";
        Rpc "ftm_estimateGas" [ArgTrx no_trx; ArgBlock BlockTypeLatest] (inr 21000)]).
Proof.
  apply (proj2 (@GasEstimate_fallback nat
                  (scripted [inl (mkError "missing value for required argument 1");
                             inr 21000] nil_slice) no_trx start_world)
               (mkError "missing value for required argument 1") 1%nat 21000 2%nat).
  - reflexivity.
  - vm_compute. reflexivity.
  - reflexivity.
Defined.

(** C10.  A primary failure whose message does not contain
    "missing value" is returned as it is, after one call; when the call
    with the block parameter is made and fails, its own error is returned
    as it is, after two calls.  Neither path calls again. *)
Theorem GasEstimate_errors {T : Type} `{Transport T} (trx : Trx.t) (w : world) :
  (forall e n,
      Call (node w) "ftm_estimateGas" [ArgTrx trx] = (inl e, n) ->
      Contains (Error e) "missing value" = false ->
      GasEstimate trx w
      = ((None, Some e),
         after n w [Log Debug "calling for gas amount estimation";
                    Rpc "ftm_estimateGas" [ArgTrx trx] (inl e);
                    Log Err ("can not estimate gas; " ++ Error e)])
      /\ existsb is_fallback_call (new_events w (snd (GasEstimate trx w))) = false
      /\ rpc_calls (new_events w (snd (GasEstimate trx w))) = 1%nat)
  /\ (forall e n e' n',
         Call (node w) "ftm_estimateGas" [ArgTrx trx] = (inl e, n) ->
         Contains (Error e) "missing value" = true ->
         Call n "ftm_estimateGas" [ArgTrx trx; ArgBlock BlockTypeLatest] = (inl e', n') ->
         GasEstimate trx w
         = ((None, Some e'),
            after n' w
              [Log Debug "calling for gas amount estimation";
               Rpc "ftm_estimateGas" [ArgTrx trx] (inl e);
               Log Debug "calling for gas amount estimation with block details";
               Rpc "ftm_estimateGas" [ArgTrx trx; ArgBlock BlockTypeLatest] (inl e');
               Log Err ("can not estimate gas; " ++ Error e')])
         /\ rpc_calls (new_events w (snd (GasEstimate trx w))) = 2%nat).
Proof.
  split.
  - intros e n E Hc. rewrite (estimate_primary_other trx w e n E Hc).
    cbn [snd]. rewrite new_events_after. repeat split; reflexivity.
  - intros e n e' n' E Hc E'.
    rewrite (estimate_fallback trx w e n E Hc).
    rewrite (with_block_fail trx _ e' n') by exact E'.
    rewrite after_after. cbn [snd app]. rewrite new_events_after.
    split; reflexivity.
Qed.

Lemma GasEstimate_errors_witness :
  @GasEstimate nat (scripted [inl (mkError "execution reverted")] nil_slice)
               no_trx start_world
  = ((None, Some (mkError "execution reverted")),
     after 1%nat start_world
       [Log Debug "calling for gas amount estimation";
        Rpc "ftm_estimateGas" [ArgTrx no_trx] (inl (mkError "execution reverted"));
        Log Err "can not estimate gas; execution reverted"])
  /\ @GasEstimate nat
       (scripted [inl (mkError "missing value for required argument 1");
                  inl (mkError "execution reverted")] nil_slice)
       no_trx start_world
     = ((None, Some (mkError "execution reverted")),
        after 2%nat start_world
          [Log Debug "calling for gas amount estimation";
           Rpc "ftm_estimateGas" [ArgTrx no_trx]
               (inl (mkError "missing value for required argument 1"));
           Log Debug "calling for gas amount estimation with block details";
           Rpc "ftm_estimateGas" [ArgTrx no_trx; ArgBlock BlockTypeLatest]
               (inl (mkError "execution reverted"));
           Log Err "can not estimate gas; execution reverted"]).
Proof.
  split.
  - apply (proj1 (@GasEstimate_errors nat
                    (scripted [inl (mkError "execution reverted")] nil_slice)
                    no_trx start_world)
                 (mkError "execution reverted") 1%nat).
    + reflexivity.
    + vm_compute. reflexivity.
  - apply (proj2 (@GasEstimate_errors nat
                    (scripted [inl (mkError "missing value for required argument 1");
                               inl (mkError "execution reverted")] nil_slice)
                    no_trx start_world)
                 (mkError "missing value for required argument 1") 1%nat
                 (mkError "execution reverted") 2%nat).
    + reflexivity.
    + vm_compute. reflexivity.
    + reflexivity.
Defined.

(** * Further properties of the bridge *)

(** ** Traces *)

Lemma rpc_calls_app (l l' : list event) :
  rpc_calls (l ++ l') = (rpc_calls l + rpc_calls l')%nat.
Proof. unfold rpc_calls. rewrite filter_app, length_app. reflexivity. Qed.

Lemma sleeps_app (l l' : list event) : sleeps (l ++ l') = sleeps l ++ sleeps l'.
Proof. unfold sleeps. apply filter_app. Qed.

Lemma last_reply_app (l l' : list event) :
  last_reply (l ++ l')
  = match last_reply l' with Some r => Some r | None => last_reply l end.
Proof.
  induction l as [|e l IH]; cbn [app last_reply].
  - destruct (last_reply l'); reflexivity.
  - rewrite IH. destruct (last_reply l'); reflexivity.
Qed.

Lemma new_events_trace {T : Type} (w w' : @world T) (evs : list event) :
  trace w' = trace w ++ evs -> new_events w w' = evs.
Proof.
  intros E. unfold new_events. rewrite E.
  rewrite skipn_app, skipn_all, Nat.sub_diag. reflexivity.
Qed.

Lemma uint8_incr_small (try : Z) : 0 <= try <= 2 -> uint8_incr try = try + 1.
Proof. intros Ht. unfold uint8_incr. apply Z.mod_small. lia. Qed.

(** ** [GasPrice]: how long a run can be and how it ends *)

(** What every run of the loop that starts with [0 <= try <= 3] adds to the
    trace. *)
Lemma loop_budget {T : Type} `{Transport T} (price try : Z) (w : world) :
  0 <= try <= 3 ->
  exists evs,
    trace (snd (GasPrice_loop price try w)) = trace w ++ evs
    /\ (1 <= rpc_calls evs)%nat
    /\ (Z.of_nat (rpc_calls evs) <= 4 - try)
    /\ (List.length (sleeps evs) + 1 = rpc_calls evs)%nat
    /\ forallb gas_price_event evs = true.
Proof.
  apply (GasPrice_loop_ind
           (fun _ try w r =>
              0 <= try <= 3 ->
              exists evs,
                trace (snd r) = trace w ++ evs
                /\ (1 <= rpc_calls evs)%nat
                /\ (Z.of_nat (rpc_calls evs) <= 4 - try)
                /\ (List.length (sleeps evs) + 1 = rpc_calls evs)%nat
                /\ forallb gas_price_event evs = true)).
  - intros price0 try0 w0 e n _ Ht. eexists; split; [reflexivity|].
    unfold rpc_calls, sleeps. cbn -[Z.sub]. repeat split; first [lia | reflexivity].
  - intros price0 try0 w0 p n _ _ Ht. eexists; split; [reflexivity|].
    unfold rpc_calls, sleeps. cbn -[Z.sub]. repeat split; first [lia | reflexivity].
  - intros price0 try0 w0 p n _ _ Hgt Ht. eexists; split; [reflexivity|].
    unfold rpc_calls, sleeps. cbn -[Z.sub]. repeat split; first [lia | reflexivity].
  - intros price0 try0 w0 p n r _ _ Hle IH Ht.
    destruct IH as (evs & Etr & H1 & H4 & Hs & Hall).
    { rewrite uint8_incr_small by lia. lia. }
    rewrite uint8_incr_small in H4 by lia.
    exists ([Rpc "ftm_gasPrice" [] (inr p); Sleep (100 * Millisecond)] ++ evs).
    split; [rewrite Etr, trace_after, <- app_assoc; reflexivity|].
    rewrite rpc_calls_app, sleeps_app, length_app, forallb_app.
    unfold rpc_calls, sleeps in *. cbn -[Z.sub]. repeat split; try lia. exact Hall.
Qed.

(** The calls and waits that a run of the loop adds come in the order
    call, wait, call, ..., call. *)
Lemma loop_call_wait_call {T : Type} `{Transport T} (price try : Z) (w : world) :
  exists evs,
    trace (snd (GasPrice_loop price try w)) = trace w ++ evs
    /\ call_wait_call (without_logs evs) = true.
Proof.
  apply (GasPrice_loop_ind
           (fun _ _ w r =>
              exists evs,
                trace (snd r) = trace w ++ evs
                /\ call_wait_call (without_logs evs) = true)).
  - intros price0 try0 w0 e n _. eexists; split; reflexivity.
  - intros price0 try0 w0 p n _ _. eexists; split; reflexivity.
  - intros price0 try0 w0 p n _ _ _. eexists; split; reflexivity.
  - intros price0 try0 w0 p n r _ _ _ (evs & Etr & Halt).
    exists ([Rpc "ftm_gasPrice" [] (inr p); Sleep (100 * Millisecond)] ++ evs).
    split; [rewrite Etr, trace_after, <- app_assoc; reflexivity|].
    unfold without_logs in *. rewrite filter_app.
    cbn [filter is_log negb app call_wait_call]. exact Halt.
Qed.

(** X1.  Whatever the transport answers, a run of [GasPrice] makes at least
    one and at most four calls, waits once between two calls and never
    before the first or after the last one, and adds nothing to the trace
    but logs, calls of [ftm_gasPrice] without arguments and waits of
    100ms. *)
Theorem GasPrice_call_budget {T : Type} `{Transport T} (w : world) :
  (1 <= rpc_calls (new_events w (snd (GasPrice w))) <= 4)%nat
  /\ (List.length (sleeps (new_events w (snd (GasPrice w)))) + 1
      = rpc_calls (new_events w (snd (GasPrice w))))%nat
  /\ forallb gas_price_event (new_events w (snd (GasPrice w))) = true
  /\ call_wait_call (without_logs (new_events w (snd (GasPrice w)))) = true.
Proof.
  unfold GasPrice.
  destruct (loop_budget 0 0 (emit (Log Debug "checking current gas price") w))
    as (evs & Etr & H1 & H4 & Hs & Hall); [lia|].
  destruct (loop_call_wait_call 0 0 (emit (Log Debug "checking current gas price") w))
    as (evs' & Etr' & Halt).
  assert (evs' = evs) by (rewrite Etr in Etr'; apply app_inv_head in Etr'; congruence).
  subst evs'.
  rewrite (new_events_trace w _ (Log Debug "checking current gas price" :: evs)).
  - change (Log Debug "checking current gas price" :: evs)
      with ([Log Debug "checking current gas price"] ++ evs).
    split; [|split; [|split]].
    + rewrite rpc_calls_app. unfold rpc_calls in *. cbn -[Z.sub]. lia.
    + rewrite rpc_calls_app, sleeps_app, length_app.
      unfold rpc_calls, sleeps in *. cbn -[Z.sub]. lia.
    + rewrite forallb_app. cbn. exact Hall.
    + unfold without_logs in *. rewrite filter_app.
      cbn [filter is_log negb app]. exact Halt.
  - rewrite Etr. cbn [emit trace]. rewrite <- app_assoc. reflexivity.
Qed.

(** How a run of the loop that starts with [0 <= try <= 3] ends. *)
Lemma loop_outcomes {T : Type} `{Transport T} (price try : Z) (w : world) :
  0 <= try <= 3 ->
  exists evs,
    trace (snd (GasPrice_loop price try w)) = trace w ++ evs
    /\ ((exists p,
            fst (GasPrice_loop price try w) = (p, None)
            /\ p <= maxAcceptedGasPrice
            /\ last_reply evs = Some (inr p))
        \/ (exists e,
               snd (fst (GasPrice_loop price try w)) = Some e
               /\ last_reply evs = Some (inl e))
        \/ (exists p,
               fst (GasPrice_loop price try w) = (p, Some GasPriceUnavailable)
               /\ maxAcceptedGasPrice < p
               /\ last_reply evs = Some (inr p)
               /\ Z.of_nat (rpc_calls evs) = 4 - try)).
Proof.
  apply (GasPrice_loop_ind
           (fun _ try w r =>
              0 <= try <= 3 ->
              exists evs,
                trace (snd r) = trace w ++ evs
                /\ ((exists p,
                        fst r = (p, None)
                        /\ p <= maxAcceptedGasPrice
                        /\ last_reply evs = Some (inr p))
                    \/ (exists e,
                           snd (fst r) = Some e
                           /\ last_reply evs = Some (inl e))
                    \/ (exists p,
                           fst r = (p, Some GasPriceUnavailable)
                           /\ maxAcceptedGasPrice < p
                           /\ last_reply evs = Some (inr p)
                           /\ Z.of_nat (rpc_calls evs) = 4 - try)))).
  - intros price0 try0 w0 e n _ Ht. eexists; split; [reflexivity|].
    right; left. exists e. split; reflexivity.
  - intros price0 try0 w0 p n _ Hp Ht. eexists; split; [reflexivity|].
    left. exists p. repeat split; first [exact Hp | reflexivity].
  - intros price0 try0 w0 p n _ Hp Hgt Ht. eexists; split; [reflexivity|].
    right; right. exists p.
    repeat split; first [exact Hp | reflexivity | unfold rpc_calls; cbn -[Z.sub]; lia].
  - intros price0 try0 w0 p n r _ _ Hle IH Ht.
    destruct IH as (evs & Etr & Hend).
    { rewrite uint8_incr_small by lia. lia. }
    rewrite uint8_incr_small in Hend by lia.
    exists ([Rpc "ftm_gasPrice" [] (inr p); Sleep (100 * Millisecond)] ++ evs).
    split; [rewrite Etr, trace_after, <- app_assoc; reflexivity|].
    rewrite last_reply_app, rpc_calls_app.
    destruct Hend as [(q & Er & Hq & Hl) | [(e & Er & Hl) | (q & Er & Hq & Hl & Hc)]];
      rewrite Hl.
    + left. exists q. repeat split; assumption.
    + right; left. exists e. split; [assumption | reflexivity].
    + right; right. exists q. repeat split; try assumption. unfold rpc_calls in *. cbn -[Z.sub]. lia.
Qed.

(** X2.  A run of [GasPrice] ends in one of three ways: with a nil error
    and the price of the last call, which is at most the ceiling; with the
    error of the last call, which failed; or with the "try again later"
    error after four calls, and then the price handed back next to the
    error is the fourth reply, which is above the ceiling. *)
Theorem GasPrice_outcomes {T : Type} `{Transport T} (w : world) :
  (exists p,
      fst (GasPrice w) = (p, None)
      /\ p <= maxAcceptedGasPrice
      /\ last_reply (new_events w (snd (GasPrice w))) = Some (inr p))
  \/ (exists e,
         snd (fst (GasPrice w)) = Some e
         /\ last_reply (new_events w (snd (GasPrice w))) = Some (inl e))
  \/ (exists p,
         fst (GasPrice w) = (p, Some GasPriceUnavailable)
         /\ maxAcceptedGasPrice < p
         /\ last_reply (new_events w (snd (GasPrice w))) = Some (inr p)
         /\ rpc_calls (new_events w (snd (GasPrice w))) = 4%nat).
Proof.
  unfold GasPrice.
  destruct (loop_outcomes 0 0 (emit (Log Debug "checking current gas price") w))
    as (evs & Etr & Hend); [lia|].
  rewrite (new_events_trace w _ ([Log Debug "checking current gas price"] ++ evs))
    by (rewrite Etr; cbn [emit trace]; rewrite <- app_assoc; reflexivity).
  rewrite last_reply_app, rpc_calls_app.
  destruct Hend as [(q & Er & Hq & Hl) | [(e & Er & Hl) | (q & Er & Hq & Hl & Hc)]];
    rewrite Hl.
  - left. exists q. repeat split; assumption.
  - right; left. exists e. split; [assumption | reflexivity].
  - right; right. exists q. repeat split; try assumption. unfold rpc_calls in *. cbn -[Z.sub]. lia.
Qed.

(** X3.  The ceiling itself is an accepted price: when the first call
    replies a price at or below 10^18, [GasPrice] returns it after that
    one call, without a wait; when the first reply is above the ceiling,
    the run goes on to a second call. *)
Theorem GasPrice_first_attempt {T : Type} `{Transport T}
        (w : world) (p : Z) (n : T) :
  Call (node w) "ftm_gasPrice" [] = (inr p, n) ->
  (p <= maxAcceptedGasPrice ->
   GasPrice w
   = ((p, None),
      after n w [Log Debug "checking current gas price";
                 Rpc "ftm_gasPrice" [] (inr p)]))
  /\ (maxAcceptedGasPrice < p ->
      (2 <= rpc_calls (new_events w (snd (GasPrice w))))%nat).
Proof.
  intros E. unfold GasPrice. rewrite emit_after. split.
  - intros Hp.
    rewrite (loop_accept 0 0 _ p n) by (rewrite ?node_after; assumption).
    rewrite after_after. reflexivity.
  - intros Hp.
    rewrite (loop_retry 0 0 _ p n) by (rewrite ?node_after; first [assumption | lia]).
    rewrite after_after. cbn [app].
    set (w1 := after n w _).
    destruct (loop_budget p (uint8_incr 0) w1) as (evs & Etr & H1 & _);
      [vm_compute; split; discriminate|].
    rewrite (new_events_trace w _
               ([Log Debug "checking current gas price";
                 Rpc "ftm_gasPrice" [] (inr p); Sleep (100 * Millisecond)] ++ evs))
      by (rewrite Etr; unfold w1; rewrite trace_after, <- app_assoc; reflexivity).
    rewrite rpc_calls_app. unfold rpc_calls in *. cbn -[Z.sub]. lia.
Qed.

Lemma GasPrice_first_attempt_witness :
  @GasPrice nat (scripted [inr maxAcceptedGasPrice] nil_slice) start_world
  = ((1000000000000000000, None),
     after 1%nat start_world
       [Log Debug "checking current gas price";
        Rpc "ftm_gasPrice" [] (inr 1000000000000000000)])
  /\ (2 <= rpc_calls (new_events start_world
                        (snd (@GasPrice nat
                                (scripted [inr (maxAcceptedGasPrice + 1)%Z] nil_slice)
                                start_world))))%nat.
Proof.
  split.
  - apply (proj1 (@GasPrice_first_attempt nat
                    (scripted [inr maxAcceptedGasPrice] nil_slice)
                    start_world maxAcceptedGasPrice 1%nat eq_refl)).
    vm_compute. discriminate.
  - apply (proj2 (@GasPrice_first_attempt nat
                    (scripted [inr (maxAcceptedGasPrice + 1)] nil_slice)
                    start_world (maxAcceptedGasPrice + 1) 1%nat eq_refl)).
    vm_compute. reflexivity.
Defined.

(** ** [GasEstimate] and [GasEstimateWithBlock]: the shape of every run *)

(** X4.  [GasEstimateWithBlock] makes one call, the one with the
    latest-block parameter, whatever the reply, an error that mentions a
    missing value included; it hands back either the estimate of that call
    with a nil error or a nil estimate with the error of that call. *)
Theorem GasEstimateWithBlock_single_call {T : Type} `{Transport T}
        (trx : Trx.t) (w : world) :
  rpc_calls (new_events w (snd (GasEstimateWithBlock trx w))) = 1%nat
  /\ existsb is_fallback_call (new_events w (snd (GasEstimateWithBlock trx w))) = true
  /\ sleeps (new_events w (snd (GasEstimateWithBlock trx w))) = []
  /\ ((exists v,
          fst (GasEstimateWithBlock trx w) = (Some v, None)
          /\ last_reply (new_events w (snd (GasEstimateWithBlock trx w)))
             = Some (inr v))
      \/ (exists e,
             fst (GasEstimateWithBlock trx w) = (None, Some e)
             /\ last_reply (new_events w (snd (GasEstimateWithBlock trx w)))
                = Some (inl e))).
Proof.
  destruct (Call (node w) "ftm_estimateGas" [ArgTrx trx; ArgBlock BlockTypeLatest])
    as [[e|v] n] eqn:E.
  - rewrite (with_block_fail trx w e n E). cbn [fst snd].
    rewrite new_events_after. repeat split.
    right. exists e. split; reflexivity.
  - rewrite (with_block_ok trx w v n E). cbn [fst snd].
    rewrite new_events_after. repeat split.
    left. exists v. split; reflexivity.
Qed.

(** X5.  Every run of [GasEstimate] makes one call or two and never
    waits.  The first call is the estimate call with the probe alone; a
    second call is made only after the first has failed, and it is the
    estimate call with the latest-block parameter appended.  The result is
    either an estimate with a nil error or a nil estimate with an error,
    and it is the reply of the last call of the run. *)
Theorem GasEstimate_shape {T : Type} `{Transport T} (trx : Trx.t) (w : world) :
  (rpc_calls (new_events w (snd (GasEstimate trx w))) = 1%nat
   \/ rpc_calls (new_events w (snd (GasEstimate trx w))) = 2%nat)
  /\ (rpc_calls (new_events w (snd (GasEstimate trx w))) = 2%nat
      <-> existsb is_fallback_call (new_events w (snd (GasEstimate trx w))) = true)
  /\ sleeps (new_events w (snd (GasEstimate trx w))) = []
  /\ ((exists v,
          fst (GasEstimate trx w) = (Some v, None)
          /\ last_reply (new_events w (snd (GasEstimate trx w))) = Some (inr v))
      \/ (exists e,
             fst (GasEstimate trx w) = (None, Some e)
             /\ last_reply (new_events w (snd (GasEstimate trx w))) = Some (inl e)))
  /\ ((exists r,
          calls_of (new_events w (snd (GasEstimate trx w)))
          = [Rpc "ftm_estimateGas" [ArgTrx trx] r])
      \/ (exists e r,
             calls_of (new_events w (snd (GasEstimate trx w)))
             = [Rpc "ftm_estimateGas" [ArgTrx trx] (inl e);
                Rpc "ftm_estimateGas" [ArgTrx trx; ArgBlock BlockTypeLatest] r])).
Proof.
  destruct (Call (node w) "ftm_estimateGas" [ArgTrx trx]) as [[e|v] n] eqn:E.
  - destruct (Contains (Error e) "missing value") eqn:Hc.
    + rewrite (estimate_fallback trx w e n E Hc).
      set (w1 := after n w _).
      destruct (Call (node w1) "ftm_estimateGas" [ArgTrx trx; ArgBlock BlockTypeLatest])
        as [[e'|v] n'] eqn:E'.
      * rewrite (with_block_fail trx w1 e' n' E'). unfold w1.
        cbn [fst snd]. rewrite after_after, new_events_after.
        split; [right; reflexivity|].
        split; [split; reflexivity|]. split; [reflexivity|].
        split; [right; exists e'; split; reflexivity|].
        right. exists e, (inl e'). reflexivity.
      * rewrite (with_block_ok trx w1 v n' E'). unfold w1.
        cbn [fst snd]. rewrite after_after, new_events_after.
        split; [right; reflexivity|].
        split; [split; reflexivity|]. split; [reflexivity|].
        split; [left; exists v; split; reflexivity|].
        right. exists e, (inr v). reflexivity.
    + rewrite (estimate_primary_other trx w e n E Hc).
      cbn [fst snd]. rewrite new_events_after.
      split; [left; reflexivity|].
      split; [split; intros F; discriminate F|]. split; [reflexivity|].
      split; [right; exists e; split; reflexivity|].
      left. exists (inl e). reflexivity.
  - rewrite (estimate_primary_ok trx w v n E).
    cbn [fst snd]. rewrite new_events_after.
    split; [left; reflexivity|].
    split; [split; intros F; discriminate F|]. split; [reflexivity|].
    split; [left; exists v; split; reflexivity|].
    left. exists (inr v). reflexivity.
Qed.

(** X6.  When the primary call succeeds, [GasEstimate] hands back its
    estimate after that one call; the call with the latest-block parameter
    is not made. *)
Theorem GasEstimate_primary_success {T : Type} `{Transport T}
        (trx : Trx.t) (w : world) (v : Z) (n : T) :
  Call (node w) "ftm_estimateGas" [ArgTrx trx] = (inr v, n) ->
  GasEstimate trx w
  = ((Some v, None),
     after n w [Log Debug "calling for gas amount estimation";
                Rpc "ftm_estimateGas" [ArgTrx trx] (inr v)])
  /\ existsb is_fallback_call (new_events w (snd (GasEstimate trx w))) = false.
Proof.
  intros E. rewrite (estimate_primary_ok trx w v n E).
  cbn [snd]. rewrite new_events_after. split; reflexivity.
Qed.

Lemma GasEstimate_primary_success_witness :
  @GasEstimate nat (scripted [inr 21000] nil_slice) no_trx start_world
  = ((Some 21000, None),
     after 1%nat start_world
       [Log Debug "calling for gas amount estimation";
        Rpc "ftm_estimateGas" [ArgTrx no_trx] (inr 21000)]).
Proof.
  apply (@GasEstimate_primary_success nat (scripted [inr 21000] nil_slice)
           no_trx start_world 21000 1%nat eq_refl).
Defined.

(** X7.  The fallback is a matter of the text of the error alone: after a
    failed primary call the second call is made exactly when the message
    reads [a ++ "missing value" ++ b] for some [a] and [b], the match
    being exact in case and spacing and allowed anywhere in the message. *)
Theorem GasEstimate_fallback_substring {T : Type} `{Transport T}
        (trx : Trx.t) (w : world) (e : error) (n : T) :
  Call (node w) "ftm_estimateGas" [ArgTrx trx] = (inl e, n) ->
  (existsb is_fallback_call (new_events w (snd (GasEstimate trx w))) = true
   <-> exists a b, Error e = (a ++ "missing value" ++ b)%string).
Proof.
  intros E. rewrite <- Contains_spec.
  destruct (Contains (Error e) "missing value") eqn:Hc.
  - rewrite (estimate_fallback trx w e n E Hc).
    set (w1 := after n w _).
    destruct (Call (node w1) "ftm_estimateGas" [ArgTrx trx; ArgBlock BlockTypeLatest])
      as [[e'|v] n'] eqn:E'.
    + rewrite (with_block_fail trx w1 e' n' E'). unfold w1.
      cbn [snd]. rewrite after_after, new_events_after. split; reflexivity.
    + rewrite (with_block_ok trx w1 v n' E'). unfold w1.
      cbn [snd]. rewrite after_after, new_events_after. split; reflexivity.
  - rewrite (estimate_primary_other trx w e n E Hc).
    cbn [snd]. rewrite new_events_after. split; intros F; discriminate F.
Qed.

Lemma GasEstimate_fallback_substring_witness :
  (existsb is_fallback_call
     (new_events start_world
        (snd (@GasEstimate nat
                (scripted [inl (mkError "missing value for required argument 1");
                           inr 21000] nil_slice) no_trx start_world))) = true
   <-> exists a b,
        "missing value for required argument 1"%string
        = (a ++ "missing value" ++ b)%string).
Proof.
  apply (@GasEstimate_fallback_substring nat
           (scripted [inl (mkError "missing value for required argument 1");
                      inr 21000] nil_slice)
           no_trx start_world
           (mkError "missing value for required argument 1") 1%nat eq_refl).
Defined.

(** ** [TokenNameAttempt] *)

(** X8.  [TokenNameAttempt] makes one contract call and no other request:
    to the given address, without a sender, with the four bytes 06fdde03
    as call data.  When the call fails the error is handed back with an
    empty name and the decoder is not run, whatever buffer came with the
    error; when it succeeds the result is the decoder's on the reply. *)
Theorem TokenNameAttempt_call {T : Type} `{Transport T}
        (adr : option Address) (w : world) :
  exists data oe n,
    CallContract (node w) (name_call adr) = ((data, oe), n)
    /\ snd (TokenNameAttempt adr w) = after n w [Eth (name_call adr) (data, oe)]
    /\ CallMsg.Data (name_call adr) = [x06; xfd; xde; x03]
    /\ CallMsg.From (name_call adr) = repeat x00 20
    /\ CallMsg.To (name_call adr) = adr
    /\ fst (TokenNameAttempt adr w)
       = match oe with
         | Some err => ([], Done (EmptyString, Some err))
         | None => parseAbiString data
         end.
Proof.
  unfold TokenNameAttempt, ethCallContract. fold (name_call adr).
  destruct (CallContract (node w) (name_call adr)) as [[data oe] n] eqn:E.
  exists data, oe, n. split; [reflexivity|].
  destruct oe as [err|]; repeat split; reflexivity.
Qed.

(** ** [parseAbiString]: the layout it decodes *)

Lemma length_be_bytes (n : nat) (z : Z) : List.length (be_bytes n z) = n.
Proof.
  revert z. induction n as [|n IH]; intros z; [reflexivity|].
  cbn [be_bytes]. rewrite length_app, IH. simpl. lia.
Qed.

Lemma byte_of_Z_value (z : Z) : Z.of_N (Byte.to_N (byte_of_Z z)) = z mod 256.
Proof.
  unfold byte_of_Z.
  assert (Hb : 0 <= z mod 256 < 256) by (apply Z.mod_pos_bound; lia).
  destruct (Byte.of_N (Z.to_N (z mod 256))) as [b|] eqn:E.
  - apply Byte.to_of_N in E. rewrite E. lia.
  - apply Byte.of_N_None_iff in E. lia.
Qed.

Lemma SetBytes_snoc (l : list byte) (b : byte) :
  Big.SetBytes (l ++ [b]) = Big.SetBytes l * 256 + Z.of_N (Byte.to_N b).
Proof. unfold Big.SetBytes. rewrite fold_left_app. reflexivity. Qed.

Lemma SetBytes_be_bytes (n : nat) (z : Z) :
  Big.SetBytes (be_bytes n z) = z mod 256 ^ Z.of_nat n.
Proof.
  revert z. induction n as [|n IH]; intros z.
  - simpl. rewrite Z.mod_1_r. reflexivity.
  - cbn [be_bytes]. rewrite SetBytes_snoc, IH, byte_of_Z_value.
    rewrite Nat2Z.inj_succ, Z.pow_succ_r by lia.
    assert (0 < 256 ^ Z.of_nat n) by (apply Z.pow_pos_nonneg; lia).
    rewrite (Z.rem_mul_r z 256 (256 ^ Z.of_nat n)) by lia. lia.
Qed.

Lemma SetBytes_word32 (z : Z) : 0 <= z < 2 ^ 256 -> Big.SetBytes (word32 z) = z.
Proof.
  intros Hz. unfold word32. rewrite SetBytes_be_bytes.
  change (256 ^ Z.of_nat 32) with (2 ^ 256). apply Z.mod_small. exact Hz.
Qed.

Lemma window_middle (d : bytes) (pre mid post : list byte) (lo hi : Z) :
  backing d = pre ++ mid ++ post ->
  lo = Z.of_nat (List.length pre) ->
  hi = lo + Z.of_nat (List.length mid) ->
  window d lo hi = mid.
Proof.
  intros E -> ->. unfold window. rewrite E.
  replace (Z.to_nat (Z.of_nat (List.length pre) + Z.of_nat (List.length mid)
                     - Z.of_nat (List.length pre)))
    with (List.length mid) by lia.
  rewrite Nat2Z.id, skipn_app, skipn_all, Nat.sub_diag.
  cbn [app skipn]. rewrite firstn_app, firstn_all, Nat.sub_diag.
  cbn [firstn]. apply app_nil_r.
Qed.

(** X9.  Round trip on the layout the decoder is written for.  A buffer
    made of the offset word 32, the length word and the bytes of a string,
    followed by any padding, decodes to that string, whatever the padding
    holds, as soon as the buffer has 96 bytes; with less padding than that
    (the empty string without a data word is such a buffer, of 64 bytes) it
    is refused as too short. *)
Theorem parseAbiString_layout (s : string) (tail spare : list byte) :
  64 + Z.of_nat (List.length (list_byte_of_string s))
  + Z.of_nat (List.length tail) + Z.of_nat (List.length spare) <= max_int ->
  parseAbiString (slice (abi_layout (list_byte_of_string s) tail) spare)
  = if 32 <=? Z.of_nat (List.length (list_byte_of_string s))
              + Z.of_nat (List.length tail)
    then ([(0, 32); (32, 64);
           (64, 64 + Z.of_nat (List.length (list_byte_of_string s)))],
          Done (s, None))
    else ([], Done (EmptyString,
                    Some (MalformedAbiPayload
                            (64 + Z.of_nat (List.length (list_byte_of_string s))
                             + Z.of_nat (List.length tail))))).
Proof.
  set (body := list_byte_of_string s). intros Hrep.
  set (d := slice (abi_layout body tail) spare).
  unfold max_int in Hrep.
  assert (Hlen : len d = 64 + Z.of_nat (List.length body) + Z.of_nat (List.length tail)).
  { unfold d, len, abi_layout, word32. cbn [elems_of].
    rewrite !length_app, !length_be_bytes. lia. }
  assert (Hcap : cap d = len d + Z.of_nat (List.length spare)).
  { unfold d, cap, len. cbn [backing elems_of]. rewrite length_app. lia. }
  destruct (Z.leb_spec 32 (Z.of_nat (List.length body) + Z.of_nat (List.length tail)))
    as [Hlong|Hshort].
  - assert (Hr : representable d) by (unfold representable, max_int; lia).
    assert (Eo : offsetField d = 32).
    { unfold offsetField.
      rewrite (window_middle d [] (word32 32)
                 (word32 (Z.of_nat (List.length body)) ++ body ++ tail ++ spare) 0 32).
      - apply SetBytes_word32. lia.
      - unfold d, abi_layout. cbn [backing app]. rewrite <- !app_assoc. reflexivity.
      - reflexivity.
      - unfold word32. rewrite length_be_bytes. reflexivity. }
    assert (EL : lengthField d = Z.of_nat (List.length body)).
    { unfold lengthField. rewrite Eo.
      rewrite (window_middle d (word32 32) (word32 (Z.of_nat (List.length body)))
                 (body ++ tail ++ spare) 32 (32 + 32)).
      - apply SetBytes_word32. lia.
      - unfold d, abi_layout. cbn [backing]. rewrite <- !app_assoc. reflexivity.
      - unfold word32. rewrite length_be_bytes. reflexivity.
      - unfold word32. rewrite length_be_bytes. reflexivity. }
    rewrite parse_body by (rewrite ?Eo, ?EL; first [assumption | lia]).
    rewrite Eo, EL.
    rewrite (window_middle d (word32 32 ++ word32 (Z.of_nat (List.length body)))
               body (tail ++ spare) (32 + 32) (32 + 32 + Z.of_nat (List.length body))).
    + unfold string_of_bytes, body. rewrite string_of_list_byte_of_string.
      reflexivity.
    + unfold d, abi_layout. cbn [backing]. rewrite <- !app_assoc. reflexivity.
    + unfold word32. rewrite length_app, !length_be_bytes. reflexivity.
    + reflexivity.
  - rewrite parse_short by lia. rewrite Hlen. reflexivity.
Qed.

Lemma parseAbiString_layout_witness :
  parseAbiString (slice (abi_layout (list_byte_of_string "DREP") (zeros 28)) [])
  = ([(0, 32); (32, 64); (64, 68)], Done ("DREP"%string, None))
  /\ parseAbiString (slice (abi_layout (list_byte_of_string "") []) [])
     = ([], Done (EmptyString,
                  Some (mkError "abi encoded string expected, only 64 bytes received"))).
Proof.
  split.
  - exact (parseAbiString_layout "DREP" (zeros 28) []
             ltac:(vm_compute; discriminate)).
  - exact (parseAbiString_layout "" [] [] ltac:(vm_compute; discriminate)).
Defined.

(** ** [parseAbiString]: every way it can end *)

Lemma length_string_of_bytes (l : list byte) :
  String.length (string_of_bytes l) = List.length l.
Proof.
  unfold string_of_bytes, string_of_list_byte.
  induction l as [|b l IH]; [reflexivity|].
  cbn [map string_of_list_ascii String.length List.length]. rewrite IH. reflexivity.
Qed.

Lemma length_window (d : bytes) (lo hi : Z) :
  0 <= lo -> lo <= hi -> hi <= cap d ->
  Z.of_nat (List.length (window d lo hi)) = hi - lo.
Proof.
  intros H0 H1 H2. unfold window, cap in *.
  rewrite length_firstn, length_skipn. lia.
Qed.

(** X10.  For a slice the runtime can hold, [parseAbiString] ends in one
    of five ways and in no other.  An error comes with the empty string
    and is the short-buffer error (fewer than 96 bytes), the offset
    overflow or the length overflow.  A string comes with a nil error,
    has as many bytes as the length field says and lies in the backing
    array from the offset plus 32 on.  A panic happens only behind the
    length test, when the length word or the string would end behind the
    capacity. *)
Theorem parseAbiString_outcomes (d : bytes) :
  representable d ->
  match snd (parseAbiString d) with
  | Done (s, Some e) =>
      s = EmptyString
      /\ ((len d < 96 /\ e = MalformedAbiPayload (len d))
          \/ (96 <= len d /\ max_int < offsetField d
              /\ e = OffsetOverflow (offsetField d))
          \/ (96 <= len d /\ offsetField d + 32 <= cap d
              /\ max_int < lengthField d
              /\ e = LengthOverflow (lengthField d)))
  | Done (s, None) =>
      96 <= len d
      /\ offsetField d + 32 + lengthField d <= cap d
      /\ Z.of_nat (String.length s) = lengthField d
      /\ s = string_of_bytes
               (window d (offsetField d + 32)
                       (offsetField d + 32 + lengthField d))
  | Panic =>
      96 <= len d /\ offsetField d <= max_int
      /\ (cap d < offsetField d + 32
          \/ (lengthField d <= max_int
              /\ cap d < offsetField d + 32 + lengthField d))
  end.
Proof.
  intros Hr. unfold max_int.
  pose proof (SetBytes_nonneg (window d 0 32)) as Hnn. fold (offsetField d) in Hnn.
  pose proof (SetBytes_nonneg (window d (offsetField d) (offsetField d + 32))) as HLn.
  fold (lengthField d) in HLn.
  destruct (Z_lt_dec (len d) 96) as [Hs|Hs].
  { rewrite parse_short by assumption. cbn [snd].
    split; [reflexivity|]. left. split; [assumption | reflexivity]. }
  destruct (Z_le_dec (2 ^ 63) (offsetField d)) as [Ho|Ho].
  { rewrite parse_offset_overflow by lia. cbn [snd].
    split; [reflexivity|]. right; left. repeat split; lia. }
  destruct (Z_le_dec (offsetField d + 32) (cap d)) as [Hc|Hc].
  2:{ destruct (parse_offset_out d) as (a & E & _); try assumption; try lia.
      rewrite E. cbn [snd]. repeat split; try lia. }
  destruct (Z_le_dec (2 ^ 63) (lengthField d)) as [HL|HL].
  { rewrite parse_length_overflow by (first [assumption | lia]). cbn [snd].
    split; [reflexivity|]. right; right. repeat split; lia. }
  destruct (Z_le_dec (offsetField d + 32 + lengthField d) (cap d)) as [Hb|Hb].
  - rewrite parse_body by (first [assumption | lia]). cbn [snd].
    repeat split; try lia.
    rewrite length_string_of_bytes, length_window by lia. lia.
  - destruct (parse_body_out d) as (a & E & _); try assumption; try lia.
    rewrite E. cbn [snd]. repeat split; try lia.
Qed.

Lemma parseAbiString_outcomes_witness :
  Z.of_nat (String.length "hello") = lengthField hello_buffer
  /\ "hello"%string
     = string_of_bytes
         (window hello_buffer (offsetField hello_buffer + 32)
                 (offsetField hello_buffer + 32 + lengthField hello_buffer)).
Proof.
  pose proof (parseAbiString_outcomes hello_buffer
                ltac:(vm_compute; discriminate)) as Hout.
  change (snd (parseAbiString hello_buffer))
    with (@Done (string * option error) ("hello"%string, None)) in Hout.
  exact (proj2 (proj2 Hout)).
Defined.

(** X11.  An offset field of zero makes the length word the offset word
    itself, so a buffer of at least 96 bytes that starts with 32 zero
    bytes decodes to the empty string, with a nil error, whatever follows
    those bytes. *)
Theorem parseAbiString_zero_offset (d : bytes) :
  representable d -> 96 <= len d -> offsetField d = 0 ->
  parseAbiString d = ([(0, 32); (0, 32); (32, 32)], Done (EmptyString, None)).
Proof.
  intros Hr Hl Ho.
  assert (EL : lengthField d = 0) by (unfold lengthField; rewrite Ho; exact Ho).
  pose proof (len_le_cap d) as Hlc.
  rewrite parse_body by (rewrite ?Ho, ?EL; first [assumption | lia]).
  rewrite Ho, EL. unfold window. cbn [Z.add Z.sub Z.opp Z.to_nat Z.pos_sub firstn].
  reflexivity.
Qed.

Lemma parseAbiString_zero_offset_witness :
  parseAbiString (slice (zeros 32 ++ list_byte_of_string "name" ++ zeros 60) [])
  = ([(0, 32); (0, 32); (32, 32)], Done (EmptyString, None)).
Proof.
  apply parseAbiString_zero_offset.
  - vm_compute. discriminate.
  - vm_compute. discriminate.
  - vm_compute. reflexivity.
Defined.

(** X12.  Past the test on 96 bytes the length of the slice plays no part
    in the decoding: two slices of at least 96 bytes over the same backing
    array decode alike, so bytes between the length and the capacity are
    read like bytes of the buffer. *)
Theorem parseAbiString_backing (d d' : bytes) :
  96 <= len d -> 96 <= len d' -> backing d = backing d' ->
  parseAbiString d = parseAbiString d'.
Proof.
  intros Hl Hl' E. unfold parseAbiString.
  rewrite !long_not_nil by assumption.
  unfold slice_expr, in_range, window, cap. rewrite E. reflexivity.
Qed.

Lemma parseAbiString_backing_witness :
  parseAbiString offset96_roomy
  = parseAbiString
      (slice (word32 96 ++ zeros 64 ++ word32 3 ++ list_byte_of_string "abc") []).
Proof.
  apply parseAbiString_backing.
  - vm_compute. discriminate.
  - vm_compute. discriminate.
  - vm_compute. reflexivity.
Defined.
